(** * A Bloom filter over SHA-256 derived bit positions

    Shallow embedding of the Go package [bloom] (bloom.go, error.go) and
    the properties of its constructor, its insertion and its query.

    Conventions of the embedding:
    - [uint64], [uint32] and [byte] values are integers of [Z] with the
      wrap-around of every arithmetic step written out;
    - [int] is the 64-bit signed integer of the platforms the tests of the
      package run on (TestBitlocation expects the index 20583756126);
    - [float64] is the primitive binary64 float of Rocq;
    - a method with a pointer receiver is a computation in a state and
      error monad over the filter, so that what it writes is observable;
    - a run-time panic (index out of range, integer division by zero, a
      slice length [make] refuses) is a result of its own, distinct from a
      returned [error];
    - what the package calls of the Go library (crypto/sha256, fmt, strconv,
      math) is modelled by the algorithm it is published with, and the test
      vectors of the package (TestHash, TestBitpositions, TestFilter_Add,
      TestFilter_Has, TestOptimalBitLen, TestOptimalHashQty, TestNew) are
      replayed on the model. *)

From Stdlib Require Import ZArith List Bool Lia Floats.
From Stdlib.Strings Require Import String Ascii Byte.
From stdpp Require Import base list.

Local Open Scope string_scope.
Local Open Scope Z_scope.

(** ** Machine integers *)

Module Int.

Definition max_uint64 : Z := 2 ^ 64 - 1.

(** Truncation of an integer to the unsigned types of the source. *)
Definition to_uint64 (z : Z) : Z := z mod 2 ^ 64.
Definition to_byte (z : Z) : Z := z mod 2 ^ 8.

(** [int(x)] for a [uint64] [x]: the same 64 bits read as two's complement. *)
Definition to_int (z : Z) : Z := (z + 2 ^ 63) mod 2 ^ 64 - 2 ^ 63.

Definition is_uint64 (z : Z) : Prop := 0 <= z < 2 ^ 64.
Definition is_byte (z : Z) : Prop := 0 <= z < 2 ^ 8.

End Int.

(** ** Bit addressing *)

(** [bitlocation] returns index in a bitstore and bit offset in bit bucket.
    If bitsize is zero, then bucket size is assumed to be 8 bits. *)
Definition bitlocation (p : Z) (bitsize : Z) : Z * Z :=
  let bitsize := if bitsize =? 0 then 8 else bitsize in
  let index := p / bitsize in
  let offset := Int.to_uint64 (p - Int.to_uint64 (index * bitsize)) in
  (Int.to_int index, Int.to_byte offset).

(** ** Errors and results *)

(** The two sentinels of [strconv]: a digit that is none, a value that does
    not fit. *)
Inductive strconv_error : Type :=
| ErrSyntax
| ErrRange.

(** A Go [error] value as this package meets it: its own [Error] string
    type (error.go), or the [*NumError] of [strconv]. *)
Inductive error : Type :=
| Error (msg : string)
| NumError (func : string) (num : string) (err : strconv_error).

(** ErrZeroElements is returned from New() when number of expected elements
    is zero. *)
Definition ErrZeroElements : error := Error "number of elements must be positive".

(** ErrProbability is returned from New() when given probability of
    false-positives is not a positive number. *)
Definition ErrProbability : error := Error "probability must be positive".

(** The run-time panics the package can meet, and the [panic(err)] of its
    Must variants. *)
Inductive panic : Type :=
| IndexOutOfRange
| SliceBoundsOutOfRange
| DivideByZero
| MakeSliceLenOutOfRange
| PanicError (e : error).

(** What a call comes back with: a value, an [error], or a panic. *)
Inductive result (A : Type) : Type :=
| Ok (a : A)
| Err (e : error)
| Panic (p : panic).

Arguments Ok {A} a.
Arguments Err {A} e.
Arguments Panic {A} p.

(** ** Bytes and strings *)

Definition byte_val (b : byte) : Z := Z.of_N (Byte.to_N b).

Definition byte_of_Z (z : Z) : byte :=
  match Byte.of_N (Z.to_N (z mod 256)) with
  | Some b => b
  | None => x00
  end.

Definition ascii_val (c : ascii) : Z := Z.of_N (N_of_ascii c).

(** ** crypto/sha256 (FIPS 180-4) *)

Module SHA256.

Definition w32 (z : Z) : Z := z mod 2 ^ 32.
Definition add32 (a b : Z) : Z := w32 (a + b).
Definition rotr (n x : Z) : Z := Z.lor (Z.shiftr x n) (w32 (Z.shiftl x (32 - n))).
Definition shr (n x : Z) : Z := Z.shiftr x n.
Definition not32 (x : Z) : Z := w32 (Z.lnot x).

Definition Ch (x y z : Z) : Z := Z.lxor (Z.land x y) (Z.land (not32 x) z).
Definition Maj (x y z : Z) : Z :=
  Z.lxor (Z.lxor (Z.land x y) (Z.land x z)) (Z.land y z).
Definition Sigma0 (x : Z) : Z := Z.lxor (Z.lxor (rotr 2 x) (rotr 13 x)) (rotr 22 x).
Definition Sigma1 (x : Z) : Z := Z.lxor (Z.lxor (rotr 6 x) (rotr 11 x)) (rotr 25 x).
Definition sigma0 (x : Z) : Z := Z.lxor (Z.lxor (rotr 7 x) (rotr 18 x)) (shr 3 x).
Definition sigma1 (x : Z) : Z := Z.lxor (Z.lxor (rotr 17 x) (rotr 19 x)) (shr 10 x).

(** The first sixty-four primes. *)
Definition primes : list Z :=
  [2; 3; 5; 7; 11; 13; 17; 19; 23; 29; 31; 37; 41; 43; 47; 53; 59; 61; 67; 71;
   73; 79; 83; 89; 97; 101; 103; 107; 109; 113; 127; 131; 137; 139; 149; 151;
   157; 163; 167; 173; 179; 181; 191; 193; 197; 199; 211; 223; 227; 229; 233;
   239; 241; 251; 257; 263; 269; 271; 277; 281; 283; 293; 307; 311].

(** The integer cube root, one bit after the other from bit [k - 1] down. *)
Fixpoint cube_root_bits (k : nat) (x r : Z) : Z :=
  match k with
  | O => r
  | S k' =>
      let b := 2 ^ Z.of_nat k' in
      cube_root_bits k' x (if (r + b) ^ 3 <=? x then r + b else r)
  end.

Definition cube_root (x : Z) : Z := cube_root_bits 64 x 0.

(** The round constants: the first 32 bits of the fractional parts of the
    cube roots of the primes (0x428a2f98, 0x71374491, ... in the table of
    the standard). *)
Definition K : list Z :=
  Eval vm_compute in map (fun p => w32 (cube_root (p * 2 ^ 96))) primes.

(** The eight working variables, and the chaining value between blocks. *)
Record state : Type := State {
  sa : Z; sb : Z; sc : Z; sd : Z; se : Z; sf : Z; sg : Z; sh : Z
}.

(** The initial hash value: the first 32 bits of the fractional parts of
    the square roots of the first eight primes. *)
Definition init_word (p : Z) : Z := w32 (Z.sqrt (p * 2 ^ 64)).

Definition init : state :=
  Eval vm_compute in
    State (init_word 2) (init_word 3) (init_word 5) (init_word 7)
          (init_word 11) (init_word 13) (init_word 17) (init_word 19).

(** The message: the bytes, one bit, zeros up to 56 mod 64, and the length
    in bits as a big-endian 64-bit integer. *)
Definition be_bytes (n : nat) (z : Z) : list Z :=
  map (fun i => Z.land (Z.shiftr z (8 * Z.of_nat i)) 255) (rev (seq 0 n)).

Definition pad (msg : list Z) : list Z :=
  let len := Z.of_nat (length msg) in
  msg ++ [128] ++ repeat 0 (Z.to_nat ((55 - len) mod 64))
      ++ be_bytes 8 ((8 * len) mod 2 ^ 64).

(** Four bytes to one big-endian word. *)
Fixpoint words (bs : list Z) : list Z :=
  match bs with
  | b0 :: b1 :: b2 :: b3 :: rest =>
      (Z.shiftl b0 24 + Z.shiftl b1 16 + Z.shiftl b2 8 + b3) :: words rest
  | _ => []
  end.

(** The message schedule, most recent word first: [ws] holds W(t-1) down
    to W(0). *)
Fixpoint schedule (n : nat) (ws : list Z) : list Z :=
  match n with
  | O => ws
  | S n' =>
      let w := add32 (add32 (sigma1 (nth 1 ws 0)) (nth 6 ws 0))
                     (add32 (sigma0 (nth 14 ws 0)) (nth 15 ws 0)) in
      schedule n' (w :: ws)
  end.

Definition round (s : state) (kw : Z * Z) : state :=
  let t1 := add32 (add32 (add32 (sh s) (Sigma1 (se s)))
                         (add32 (Ch (se s) (sf s) (sg s)) (fst kw))) (snd kw) in
  let t2 := add32 (Sigma0 (sa s)) (Maj (sa s) (sb s) (sc s)) in
  State (add32 t1 t2) (sa s) (sb s) (sc s) (add32 (sd s) t1) (se s) (sf s) (sg s).

Definition compress (h : state) (block : list Z) : state :=
  let ws := rev (schedule 48 (rev block)) in
  let s := fold_left round (combine K ws) h in
  State (add32 (sa h) (sa s)) (add32 (sb h) (sb s)) (add32 (sc h) (sc s))
        (add32 (sd h) (sd s)) (add32 (se h) (se s)) (add32 (sf h) (sf s))
        (add32 (sg h) (sg s)) (add32 (sh h) (sh s)).

(** One block of sixteen words after the other. *)
Fixpoint blocks (n : nat) (h : state) (ws : list Z) : state :=
  match n with
  | O => h
  | S n' => blocks n' (compress h (firstn 16 ws)) (skipn 16 ws)
  end.

Definition digest_words (h : state) : list Z :=
  [sa h; sb h; sc h; sd h; se h; sf h; sg h; sh h].

(** [sha256.Sum256]: the 32 bytes of the digest. *)
Definition Sum256 (msg : list byte) : list byte :=
  let ws := words (pad (map byte_val msg)) in
  let h := blocks (length ws / 16)%nat init ws in
  map byte_of_Z (concat (map (be_bytes 4) (digest_words h))).

End SHA256.

(** ** fmt and strconv *)

(** One hexadecimal digit, lower case, as the verb [%x] prints it. *)
Definition hex_digit (d : Z) : ascii :=
  ascii_of_N (Z.to_N (if d <? 10 then 48 + d else 87 + d)).

(** [fmt.Sprintf("%x", b)] for a byte slice: two digits a byte. *)
Fixpoint Sprintf_x (bs : list byte) : string :=
  match bs with
  | [] => EmptyString
  | b :: rest =>
      String (hex_digit (byte_val b / 16))
             (String (hex_digit (byte_val b mod 16)) (Sprintf_x rest))
  end.

Module strconv.

(** [lower(c)] is a lower-case letter if and only if [c] is either that
    lower-case letter or the equivalent upper-case letter. *)
Definition lower (c : Z) : Z := Z.lor c 32.

(** The value of the digit [c], if it is one. *)
Definition digit (c : Z) : option Z :=
  if (48 <=? c) && (c <=? 57) then Some (c - 48)
  else if (97 <=? lower c) && (lower c <=? 122) then Some (lower c - 97 + 10)
  else None.

(** The loop of [ParseUint] over the bytes of the string, [n] the value
    read so far. *)
Fixpoint parse_digits (s0 s : string) (base cutoff maxVal n : Z) : Z * option error :=
  match s with
  | EmptyString => (n, None)
  | String c rest =>
      match digit (ascii_val c) with
      | None => (0, Some (NumError "ParseUint" s0 ErrSyntax))
      | Some d =>
          if d >=? Int.to_byte base then (0, Some (NumError "ParseUint" s0 ErrSyntax))
          else if n >=? cutoff then (maxVal, Some (NumError "ParseUint" s0 ErrRange))
          else
            let n := Int.to_uint64 (n * base) in
            let n1 := Int.to_uint64 (n + d) in
            if (n1 <? n) || (n1 >? maxVal)
            then (maxVal, Some (NumError "ParseUint" s0 ErrRange))
            else parse_digits s0 rest base cutoff maxVal n1
      end
  end.

(** [strconv.ParseUint(s, base, bitSize)] for an explicit base between 2 and
    36 and a bit size between 1 and 64. The prefix detection of base 0 and
    the default of bit size 0 are left out: the package calls it with 16
    and 64 only. *)
Definition ParseUint (s : string) (base bitSize : Z) : Z * option error :=
  match s with
  | EmptyString => (0, Some (NumError "ParseUint" s ErrSyntax))
  | _ =>
      if negb ((2 <=? base) && (base <=? 36))
      then (0, Some (Error "invalid base"))
      else if negb ((1 <=? bitSize) && (bitSize <=? 64))
      then (0, Some (Error "invalid bit size"))
      else
        let cutoff := Int.max_uint64 / base + 1 in
        let maxVal := Int.to_uint64 (Z.shiftl 1 bitSize) - 1 in
        let maxVal := Int.to_uint64 maxVal in
        parse_digits s s base cutoff maxVal 0
  end.

End strconv.

(** ** Position derivation *)

(** [hash] returns a position in the bit array by hashing [b]: the first 16
    characters of the hex digest of sha256(b) are read as a number, which
    is reduced to the range of [bitlen]. A zero [bitlen] is an integer
    division by zero. *)
Definition hash (b : list byte) (bitlen : Z) : result Z :=
  let hexdigest := Sprintf_x (SHA256.Sum256 b) in
  if (String.length hexdigest <? 16)%nat then Panic SliceBoundsOutOfRange
  else
    match strconv.ParseUint (substring 0 16 hexdigest) 16 64 with
    | (_, Some err) => Err err
    | (i, None) =>
        if bitlen =? 0 then Panic DivideByZero else Ok (i mod bitlen)
    end.

(** [bitpositions] applies [hashqty] hash functions to an element to
    calculate its bit positions: the element and the hash index are
    concatenated in the buffer [b], whose last byte is overwritten in every
    turn of the loop. [fuel] counts the turns that are left, [i] is the
    index byte. A failing [hash] leaves 0 at its index and breaks the loop. *)
Fixpoint bitpositions_loop (fuel : nat) (i : Z) (len : nat) (bitlen : Z)
    (b : list byte) (pos : list Z) : result (list Z * option error) :=
  match fuel with
  | O => Ok (pos, None)
  | S fuel' =>
      let b := <[len := byte_of_Z i]> b in
      match hash b bitlen with
      | Panic p => Panic p
      | Err err => Ok (<[Z.to_nat i := 0]> pos, Some err)
      | Ok h =>
          bitpositions_loop fuel' (Int.to_byte (i + 1)) len bitlen b
                            (<[Z.to_nat i := h]> pos)
      end
  end.

Definition bitpositions (element : list byte) (hashqty : Z) (bitlen : Z)
    : result (list Z * option error) :=
  let b := (element ++ [x00])%list in
  let pos := repeat 0 (Z.to_nat hashqty) in
  bitpositions_loop (Z.to_nat hashqty) 0 (length element) bitlen b pos.

(** ** math and the float conversions *)

Module math.

(** [float64(i)] for an [int] of small magnitude. *)
Definition float64_of_int (z : Z) : float :=
  if z <? 0 then (- PrimFloat.of_uint63 (Uint63.of_Z (- z)))%float
  else PrimFloat.of_uint63 (Uint63.of_Z z).

(** [math.Frexp]: [f = frac * 2^exp] with [frac] in [[1/2, 1)]. *)
Definition Frexp (f : float) : float * Z := Z.frexp f.

(** The constant [math.Sqrt2/2], rounded once. *)
Definition Sqrt2_div_2 : float := 0x1.6a09e667f3bcdp-1%float.

Definition Ln2Hi : float := 0x1.62e42fee00000p-1%float.
Definition Ln2Lo : float := 0x1.a39ef35793c76p-33%float.
Definition L1 : float := 0x1.5555555555593p-1%float.
Definition L2 : float := 0x1.999999997fa04p-2%float.
Definition L3 : float := 0x1.2492494229359p-2%float.
Definition L4 : float := 0x1.c71c51d8e78afp-3%float.
Definition L5 : float := 0x1.7466496cb03dep-3%float.
Definition L6 : float := 0x1.39a09d078c69fp-3%float.
Definition L7 : float := 0x1.2f112df3e5244p-3%float.

(** [math.Log], the natural logarithm, by the argument reduction and the
    polynomial of the portable implementation of the Go library, every
    operation rounded to binary64 on its own (no fused multiply-add). A
    platform whose [math.Log] is written in assembly can differ from it on
    subnormal arguments; the properties below that compute a value do so
    at normal arguments. *)
Definition Log (x : float) : float :=
  if PrimFloat.is_nan x || (x =? infinity)%float then x
  else if (x <? 0)%float then nan
  else if (x =? 0)%float then neg_infinity
  else
    let '(f1, ki) := Frexp x in
    let '(f1, ki) :=
      if (f1 <? Sqrt2_div_2)%float then ((f1 * 2)%float, ki - 1) else (f1, ki) in
    let f := (f1 - 1)%float in
    let k := float64_of_int ki in
    let s := (f / (2 + f))%float in
    let s2 := (s * s)%float in
    let s4 := (s2 * s2)%float in
    let t1 := (s2 * (L1 + s4 * (L3 + s4 * (L5 + s4 * L7))))%float in
    let t2 := (s4 * (L2 + s4 * (L4 + s4 * L6)))%float in
    let R := (t1 + t2)%float in
    let hfsq := (0.5 * f * f)%float in
    (k * Ln2Hi - ((hfsq - (s * (hfsq + R) + k * Ln2Lo)) - f))%float.

(** [math.Ceil], the least integer value greater than or equal to [x];
    zeros, infinities and NaN are returned as they are, and a result of
    zero keeps the sign of [x]. *)
Definition Ceil (x : float) : float :=
  match Prim2SF x with
  | S754_finite s m e =>
      if 0 <=? e then x
      else
        let q := Z.pos m / 2 ^ (- e) in
        if s then (if q =? 0 then neg_zero else float64_of_int (- q))
        else float64_of_int (if Z.pos m mod 2 ^ (- e) =? 0 then q else q + 1)
  | _ => x
  end.

End math.

(** The integer part of a finite float, towards zero. *)
Definition SFtrunc (x : spec_float) : option Z :=
  match x with
  | S754_zero _ => Some 0
  | S754_finite s m e =>
      let a := if 0 <=? e then Z.pos m * 2 ^ e else Z.pos m / 2 ^ (- e) in
      Some (if s then - a else a)
  | _ => None
  end.

Definition float_trunc (x : float) : option Z := SFtrunc (Prim2SF x).

(** [float64(n)] for a [uint32]. *)
Definition float64_of_uint32 (n : Z) : float := PrimFloat.of_uint63 (Uint63.of_Z n).

(** [uint64(x)] and [byte(x)] for a [float64]: the fraction is discarded.
    Where the integer part does not fit the type, Go leaves the result to
    the implementation; here it is reduced to the width of the type, and
    NaN and the infinities give the most significant bit alone. *)
Definition uint64_of_float (x : float) : Z :=
  match float_trunc x with
  | Some z => Int.to_uint64 z
  | None => 2 ^ 63
  end.

Definition byte_of_float (x : float) : Z :=
  match float_trunc x with
  | Some z => Int.to_byte z
  | None => 0
  end.

(** ** Capacity planning *)

(** The local [optLen] of [optimalBitLen]. *)
Definition optLen (n : Z) (prob : float) : float :=
  let ln2 := math.Log 2 in
  (- float64_of_uint32 n * math.Log prob / (ln2 * ln2))%float.

(** [optimalBitLen] finds the optimal length of a bit array based on [n]
    number of elements in a set and [prob] error rate. *)
Definition optimalBitLen (n : Z) (prob : float) : Z :=
  uint64_of_float (math.Ceil (optLen n prob)).

(** The local [optQty] of [optimalHashQty]. *)
Definition optQty (prob : float) : float :=
  (- math.Log prob / math.Log 2)%float.

(** [optimalHashQty] finds the optimal count of hash functions based on
    desired probability of an error. *)
Definition optimalHashQty (prob : float) : Z :=
  byte_of_float (math.Ceil (optQty prob)).

(** ** The filter *)

(** Filter represents a Bloom filter: [prob] is a desired probability of
    false positives, [bitlen] is how many bits are needed to store [n]
    elements, [hashqty] is a number of hash functions, [n] is a number of
    elements a client intends to store, [bitstore] is a bit array of uint64
    bit buckets. *)
Record Filter : Type := mkFilter {
  prob : float;
  bitlen : Z;
  hashqty : Z;
  n : Z;
  bitstore : list Z
}.

Definition set_bitstore (bs : list Z) (bf : Filter) : Filter :=
  {| prob := prob bf; bitlen := bitlen bf; hashqty := hashqty bf; n := n bf;
     bitstore := bs |}.

(** The most bytes one allocation can take: the run time's [maxAlloc] for
    the 48 bits of heap address of the 64-bit platforms the package is
    tested on. *)
Definition maxAlloc : Z := 2 ^ 48.

(** [make([]uint64, len)] for a [uint64] length: the run time reads the
    length as an [int] and panics with "makeslice: len out of range" when it
    is negative, or when the 8 bytes a word of the slice overflow or exceed
    [maxAlloc]; the slice is zeroed. An allocation within the limit is taken
    to succeed. *)
Definition makeslice (len : Z) : result (list Z) :=
  let mem := 8 * len in
  if (Int.to_int len <? 0) || (Int.max_uint64 <? mem) || (maxAlloc <? mem)
  then Panic MakeSliceLenOutOfRange
  else Ok (repeat 0 (Z.to_nat len)).

(** [New] creates a new Bloom filter for [n] elements based on tolerated
    error rate of false positives. *)
Definition New (n : Z) (prob : float) : result Filter :=
  if n =? 0 then Err ErrZeroElements
  else if (prob <=? 0)%float then Err ErrProbability
  else
    let hashqty := optimalHashQty prob in
    let bitlen := optimalBitLen n prob in
    let buckets := bitlen / 64 in
    let buckets :=
      if negb (bitlen mod 64 =? 0) then Int.to_uint64 (buckets + 1) else buckets in
    match makeslice buckets with
    | Ok bitstore =>
        Ok {| prob := prob; bitlen := bitlen; hashqty := hashqty; n := n;
              bitstore := bitstore |}
    | Err err => Err err
    | Panic p => Panic p
    end.

(** *** Methods: computations over the filter they point to *)

Definition M (A : Type) : Type := Filter -> result A * Filter.

Definition ret {A : Type} (a : A) : M A := fun bf => (Ok a, bf).

Definition bind {A B : Type} (m : M A) (k : A -> M B) : M B :=
  fun bf =>
    match m bf with
    | (Ok a, bf') => k a bf'
    | (Err e, bf') => (Err e, bf')
    | (Panic p, bf') => (Panic p, bf')
    end.

Notation "x <- m ;; k" := (bind m (fun x => k))
  (at level 100, m at next level, right associativity).
Notation "m ;; k" := (bind m (fun _ => k))
  (at level 100, right associativity).

(** The word [s[index]] of a slice, if the index is in range. *)
Definition word_at (s : list Z) (index : Z) : option Z :=
  if index <? 0 then None else s !! Z.to_nat index.

(** [bf.bitstore[index]] *)
Definition load (index : Z) : M Z :=
  fun bf =>
    match word_at (bitstore bf) index with
    | Some w => (Ok w, bf)
    | None => (Panic IndexOutOfRange, bf)
    end.

(** [bf.bitstore[index] |= mask] *)
Definition or_store (index mask : Z) : M unit :=
  fun bf =>
    match word_at (bitstore bf) index with
    | Some w =>
        (Ok tt, set_bitstore (<[Z.to_nat index := Z.lor w mask]> (bitstore bf)) bf)
    | None => (Panic IndexOutOfRange, bf)
    end.

(** The single-bit mask [1 << offset] of a uint64. *)
Definition bit_mask (offset : Z) : Z := Int.to_uint64 (Z.shiftl 1 offset).

(** The loop of [Add] over the positions. *)
Fixpoint Add_loop (pos : list Z) : M unit :=
  match pos with
  | [] => ret tt
  | p :: rest =>
      let '(index, offset) := bitlocation p 64 in
      let mask := bit_mask offset in
      or_store index mask ;;
      Add_loop rest
  end.

(** [Add] adds an element to the set. *)
Definition Add (element : list byte) : M unit :=
  fun bf =>
    match bitpositions element (hashqty bf) (bitlen bf) with
    | Panic p => (Panic p, bf)
    | Err err | Ok (_, Some err) => (Err err, bf)
    | Ok (pos, None) => Add_loop pos bf
    end.

(** The loop of [Has] over the positions, left at the first clear bit. *)
Fixpoint Has_loop (pos : list Z) : M bool :=
  match pos with
  | [] => ret true
  | p :: rest =>
      let '(index, offset) := bitlocation p 64 in
      let mask := bit_mask offset in
      w <- load index ;;
      if Z.land w mask =? 0 then ret false else Has_loop rest
  end.

(** [Has] tests if the element is in the set. *)
Definition Has (element : list byte) : M bool :=
  fun bf =>
    match bitpositions element (hashqty bf) (bitlen bf) with
    | Panic p => (Panic p, bf)
    | Err err | Ok (_, Some err) => (Err err, bf)
    | Ok (pos, None) => Has_loop pos bf
    end.

(** [MustAdd] is similar to [Add], but it panics if the error is not nil. *)
Definition MustAdd (element : list byte) : M unit :=
  fun bf =>
    match Add element bf with
    | (Err err, bf') => (Panic (PanicError err), bf')
    | r => r
    end.

(** [MustHave] is similar to [Has], but it panics if the error is not nil. *)
Definition MustHave (element : list byte) : M bool :=
  fun bf =>
    match Has element bf with
    | (Err err, bf') => (Panic (PanicError err), bf')
    | r => r
    end.

(** A run of adds, one after the other on the same filter, whatever each
    of them comes back with. *)
Definition Add_all (elements : list (list byte)) (bf : Filter) : Filter :=
  fold_left (fun bf e => snd (Add e bf)) elements bf.

(** ** fuzz.go *)

(** The probability 0.0001 of [Fuzz], as the float64 it is. *)
Definition prob_0_0001 : float := 0x1.a36e2eb1c432dp-14%float.

(** What a function that drops the error of [New] comes back with: a value,
    a panic of the package, or the dereference of the nil filter that [New]
    returns beside an error. *)
Inductive outcome (A : Type) : Type :=
| Returns (a : A)
| Panics (p : panic)
| NilDereference.

Arguments Returns {A} a.
Arguments Panics {A} p.
Arguments NilDereference {A}.

(** [Fuzz] is the entry point of go-fuzz: it adds the input to a filter for
    4294967295 elements and answers 1, or 0 when [Add] returns an error. *)
Definition Fuzz (data : list byte) : outcome Z :=
  match New 4294967295 prob_0_0001 with
  | Ok bf =>
      match fst (Add data bf) with
      | Ok _ => Returns 1
      | Err _ => Returns 0
      | Panic p => Panics p
      end
  | Err _ => NilDereference
  | Panic p => Panics p
  end.

(** ** bloom_test.go *)

(** The loop of [equal] over the indices of [s1]; [fuel] counts the turns
    that are left. *)
Fixpoint equal_loop (fuel : nat) (i : nat) (s1 s2 : list Z) : result bool :=
  match fuel with
  | O => Ok true
  | S fuel' =>
      match s1 !! i, s2 !! i with
      | Some a, Some b =>
          if negb (a =? b) then Ok false else equal_loop fuel' (S i) s1 s2
      | _, _ => Panic IndexOutOfRange
      end
  end.

(** [equal] compares two slices of positions. *)
Definition equal (s1 s2 : list Z) : result bool :=
  if negb (length s1 =? length s2)%nat then Ok false
  else equal_loop (length s1) 0 s1 s2.

(** * Vocabulary of the properties *)

(** The bucket size [bitlocation] works with. *)
Definition bucket_size (bitsize : Z) : Z := if bitsize =? 0 then 8 else bitsize.

(** A filter whose fields are in the range of their types. *)
Definition Filter_wf (bf : Filter) : Prop :=
  Int.is_uint64 (bitlen bf) /\ Int.is_byte (hashqty bf).

(** Every bit of [w] is a bit of [w']. *)
Definition word_le (w w' : Z) : Prop :=
  forall j, Z.testbit w j = true -> Z.testbit w' j = true.

(** Bucket by bucket, the bits of [s] are bits of [s']. *)
Definition bits_le (s s' : list Z) : Prop := Forall2 word_le s s'.

(** [bf'] is [bf] with, possibly, more bits set. *)
Definition Filter_le (bf bf' : Filter) : Prop :=
  prob bf = prob bf' /\ bitlen bf = bitlen bf' /\ hashqty bf = hashqty bf' /\
  n bf = n bf' /\ bits_le (bitstore bf) (bitstore bf').

(** The bit of the bit array at position [p], if its bucket exists. *)
Definition bit_of (bf : Filter) (p : Z) : option bool :=
  match word_at (bitstore bf) (p / 64) with
  | Some w => Some (Z.testbit w (p mod 64))
  | None => None
  end.

(** The value of a hexadecimal character: its place among the sixteen
    digits. *)
Definition hex_char_value (c : ascii) : Z :=
  match index 0 (String c EmptyString) "0123456789abcdef" with
  | Some k => Z.of_nat k
  | None => 0
  end.

(** A string of hexadecimal characters read as a number in base 16, most
    significant digit first, after the digits [acc] read before it. *)
Fixpoint hex_value_from (s : string) (acc : Z) : Z :=
  match s with
  | EmptyString => acc
  | String c rest => hex_value_from rest (16 * acc + hex_char_value c)
  end.

Definition hex_value (s : string) : Z := hex_value_from s 0.

(** Position [i] of an element as the specification derives it: the index
    byte [i] is appended to the element, the SHA-256 digest of the buffer is
    written in hexadecimal, its first 16 characters are read as a number in
    base 16, and the number is reduced modulo the bit length [m]. *)
Definition derived_position (element : list byte) (i : Z) (m : Z) : Z :=
  let buffer := (element ++ [byte_of_Z i])%list in
  let hexdigest := Sprintf_x (SHA256.Sum256 buffer) in
  hex_value (substring 0 16 hexdigest) mod m.

(** The positions of an element for [k] hash functions. *)
Definition derived_positions (element : list byte) (k : Z) (m : Z) : list Z :=
  map (fun i => derived_position element (Z.of_nat i) m) (seq 0 (Z.to_nat k)).

(** The buckets of a filter hold all the bits of its bit length. *)
Definition Filter_sized (bf : Filter) : Prop :=
  bitlen bf <= 64 * Z.of_nat (length (bitstore bf)).

(** The filters of TestFilter_Add and TestFilter_Has. *)
Definition TestFilter_Add_bf : Filter :=
  {| prob := 0; bitlen := 48; hashqty := 4; n := 0; bitstore := [0] |}.

Definition TestFilter_Has_bf : Filter :=
  {| prob := 0; bitlen := 48; hashqty := 4; n := 0; bitstore := [210453397632] |}.

(** The least integer not below [a / d], for a positive [d]. *)
Definition Zceil_div (a d : Z) : Z := - ((- a) / d).

(** The least integer not below the value of a finite float. *)
Definition SFceiling (x : spec_float) : option Z :=
  match x with
  | S754_zero _ => Some 0
  | S754_finite s m e =>
      let z := if s then Z.neg m else Z.pos m in
      Some (if 0 <=? e then z * 2 ^ e else Zceil_div z (2 ^ (- e)))
  | _ => None
  end.

Definition float_ceiling (x : float) : option Z := SFceiling (Prim2SF x).

(** The probability 0.01 of the tests, as the float64 it is. *)
Definition prob_0_01 : float := 0x1.47ae147ae147bp-7%float.

(** The float64 nearest to 1e-100. *)
Definition prob_1e_100 : float := 0x1.bff2ee48e053p-333%float.

(** 2^64 as a float64. *)
Definition two_64 : float := 0x1p64%float.

(** The cutoff of [ParseUint] in base 16: the smallest number that, times
    16, is beyond the uint64 range. *)
Definition cutoff16 : Z := Int.max_uint64 / 16 + 1.

(** The bit array [s] with the bit at position [p] set, where its bucket
    exists. *)
Definition set_bit (s : list Z) (p : Z) : list Z :=
  match word_at s (p / 64) with
  | Some w => <[Z.to_nat (p / 64) := Z.lor w (2 ^ (p mod 64))]> s
  | None => s
  end.

(** The bit array [s] with the bits at the positions [pos] set. *)
Definition set_bits (s : list Z) (pos : list Z) : list Z := fold_left set_bit pos s.

(** The bit of a bit array at position [p], if its bucket exists. *)
Definition bit_at (s : list Z) (p : Z) : option bool :=
  match word_at s (p / 64) with
  | Some w => Some (Z.testbit w (p mod 64))
  | None => None
  end.

(** The positions of all the elements of a run of adds. *)
Definition positions_of (es : list (list byte)) (k m : Z) : list Z :=
  flat_map (fun e => derived_positions e k m) es.

(** Bytes read as a number in base 256, most significant byte first, after
    the bytes [acc] read before them. *)
Fixpoint be_value_from (bs : list byte) (acc : Z) : Z :=
  match bs with
  | [] => acc
  | b :: rest => be_value_from rest (256 * acc + byte_val b)
  end.

(** The first eight bytes of a slice as a big-endian uint64. *)
Definition be_uint64 (bs : list byte) : Z := be_value_from (firstn 8 bs) 0.

(** * Properties *)

(** ** Machine integers *)

Lemma to_uint64_id z : Int.is_uint64 z -> Int.to_uint64 z = z.
Proof. unfold Int.is_uint64, Int.to_uint64. intros H. now apply Z.mod_small. Qed.

Lemma to_uint64_range z : Int.is_uint64 (Int.to_uint64 z).
Proof. unfold Int.is_uint64, Int.to_uint64. apply Z.mod_pos_bound. lia. Qed.

Lemma to_byte_id z : Int.is_byte z -> Int.to_byte z = z.
Proof. unfold Int.is_byte, Int.to_byte. intros H. now apply Z.mod_small. Qed.

Lemma to_byte_range z : Int.is_byte (Int.to_byte z).
Proof. unfold Int.is_byte, Int.to_byte. apply Z.mod_pos_bound. lia. Qed.

Lemma to_int_small z : 0 <= z < 2 ^ 63 -> Int.to_int z = z.
Proof. intros H. unfold Int.to_int. rewrite Z.mod_small; lia. Qed.

Lemma to_int_large z : 2 ^ 63 <= z < 2 ^ 64 -> Int.to_int z = z - 2 ^ 64.
Proof.
  intros H. unfold Int.to_int.
  replace (z + 2 ^ 63) with ((z - 2 ^ 63) + 1 * 2 ^ 64) by lia.
  rewrite Z.mod_add by lia. rewrite Z.mod_small; lia.
Qed.

(** ** Bit addressing *)

(** The offset is the remainder of the position, and fits a byte. *)
Lemma bitlocation_offset p w :
  Int.is_uint64 p -> Int.is_byte w ->
  snd (bitlocation p w) = p mod bucket_size w /\
  p mod bucket_size w = p - p / bucket_size w * bucket_size w.
Proof.
  unfold Int.is_uint64, Int.is_byte, bitlocation, bucket_size. intros Hp Hw. cbn [snd].
  set (b := if w =? 0 then 8 else w).
  assert (Hb : 0 < b < 256) by (subst b; destruct (Z.eqb_spec w 0); lia).
  pose proof (Z.mod_pos_bound p b ltac:(lia)) as Hm.
  pose proof (Z.div_mod p b ltac:(lia)) as Hd.
  assert (Hq : 0 <= p / b) by (apply Z.div_pos; lia).
  assert (Hle : 0 <= p / b * b <= p) by nia.
  rewrite (to_uint64_id (p / b * b)) by (unfold Int.is_uint64; lia).
  replace (p - p / b * b) with (p mod b) by lia.
  rewrite to_uint64_id by (unfold Int.is_uint64; lia).
  rewrite to_byte_id by (unfold Int.is_byte; lia).
  split; [reflexivity | lia].
Qed.

(** The index is the quotient as long as it fits the signed [int]. *)
Lemma bitlocation_index p w :
  0 <= p / bucket_size w < 2 ^ 63 -> fst (bitlocation p w) = p / bucket_size w.
Proof.
  unfold bitlocation, bucket_size. cbn [fst]. intros H. now apply to_int_small.
Qed.

(** With the bucket size 64 of the filter the index never wraps. *)
Lemma bitlocation_64 p :
  Int.is_uint64 p -> bitlocation p 64 = (p / 64, p mod 64).
Proof.
  intros Hp.
  destruct (bitlocation_offset p 64 Hp ltac:(unfold Int.is_byte; lia)) as [Ho _].
  pose proof (bitlocation_index p 64) as Hi.
  change (bucket_size 64) with 64 in *.
  destruct (bitlocation p 64) as [i o]; cbn [fst snd] in *.
  unfold Int.is_uint64 in Hp.
  rewrite Hi, Ho; [reflexivity |].
  split; [apply Z.div_pos; lia | apply Z.div_lt_upper_bound; lia].
Qed.

(** C8, as stated, fails: a position of 2^63 with one-bit buckets has the
    quotient 2^63, which the [int] of the result reads as -2^63. *)
Lemma bitlocation_index_wraps :
  bitlocation (2 ^ 63) 1 = (- 2 ^ 63, 0) /\
  fst (bitlocation (2 ^ 63) 1) <> 2 ^ 63 / 1.
Proof. split; [reflexivity | vm_compute; discriminate]. Qed.

(** C8 (amended): for every uint64 position [p] and byte width [w], with
    [w = 0] treated as 8, [bitlocation p w] is the quotient [p / w] and the
    remainder [p - (p / w) * w] whenever the quotient is below 2^63, the
    range of the [int] it is returned in; in particular
    [bitlocation 63 64 = (0, 63)] and [bitlocation 64 64 = (1, 0)]. *)
Theorem bitlocation_spec p w :
  Int.is_uint64 p -> Int.is_byte w ->
  p / bucket_size w < 2 ^ 63 ->
  bitlocation p w =
    (p / bucket_size w, p - p / bucket_size w * bucket_size w) /\
  bucket_size 0 = 8 /\
  bitlocation 63 64 = (0, 63) /\ bitlocation 64 64 = (1, 0).
Proof.
  intros Hp Hw Hq. split; [| repeat split].
  destruct (bitlocation_offset p w Hp Hw) as [Ho Hr].
  assert (Hi : fst (bitlocation p w) = p / bucket_size w).
  { apply bitlocation_index. split; [| exact Hq].
    unfold Int.is_uint64, Int.is_byte, bucket_size in *.
    apply Z.div_pos; [lia | destruct (Z.eqb_spec w 0); lia]. }
  destruct (bitlocation p w) as [i o]; cbn [fst snd] in *.
  now rewrite Hi, Ho, Hr.
Qed.

Lemma bitlocation_spec_witness :
  bitlocation 41167512252 2 = (20583756126, 41167512252 - 20583756126 * 2).
Proof.
  refine (proj1 (bitlocation_spec 41167512252 2 _ _ _));
    unfold Int.is_uint64, Int.is_byte; vm_compute; intuition discriminate.
Defined.

(** ** Words and masks *)

Lemma bit_mask_pow2 o : 0 <= o < 64 -> bit_mask o = 2 ^ o.
Proof.
  intros Ho. unfold bit_mask. rewrite Z.shiftl_1_l.
  apply to_uint64_id. unfold Int.is_uint64. split; [apply Z.pow_nonneg; lia |].
  apply Z.pow_lt_mono_r; lia.
Qed.

Lemma land_pow2_eqb w o :
  0 <= o -> (Z.land w (2 ^ o) =? 0) = negb (Z.testbit w o).
Proof.
  intros Ho. destruct (Z.testbit w o) eqn:Hb; cbn [negb].
  - apply Z.eqb_neq. intros H0.
    assert (Hc : Z.testbit (Z.land w (2 ^ o)) o = true).
    { rewrite Z.land_spec, Hb, Z.pow2_bits_true by lia. reflexivity. }
    rewrite H0, Z.bits_0 in Hc. discriminate.
  - apply Z.eqb_eq. apply Z.bits_inj'. intros k Hk.
    rewrite Z.land_spec, Z.bits_0, Z.pow2_bits_eqb by lia.
    destruct (Z.eqb_spec o k) as [-> | _]; [now rewrite Hb | apply andb_false_r].
Qed.

Lemma word_le_refl w : word_le w w.
Proof. intros j H. exact H. Qed.

Lemma word_le_trans w1 w2 w3 : word_le w1 w2 -> word_le w2 w3 -> word_le w1 w3.
Proof. intros H12 H23 j H. apply H23, H12, H. Qed.

Lemma word_le_lor w m : word_le w (Z.lor w m).
Proof. intros j H. rewrite Z.lor_spec, H. reflexivity. Qed.

Lemma lor_absorb w w' m : word_le (Z.lor w m) w' -> Z.lor w' m = w'.
Proof.
  intros H. apply Z.bits_inj'. intros k _. rewrite Z.lor_spec.
  destruct (Z.testbit m k) eqn:Hm; [| apply orb_false_r].
  rewrite (H k); [reflexivity |]. rewrite Z.lor_spec, Hm. apply orb_true_r.
Qed.

Lemma bits_le_refl s : bits_le s s.
Proof. unfold bits_le. induction s; constructor; auto using word_le_refl. Qed.

Lemma bits_le_trans s1 s2 s3 : bits_le s1 s2 -> bits_le s2 s3 -> bits_le s1 s3.
Proof.
  unfold bits_le. intros H12. revert s3.
  induction H12 as [| w1 w2 s1 s2 Hw H12 IH]; intros s3 H23.
  - inversion H23. constructor.
  - inversion H23 as [| ? w3 ? s3' Hw' H23']; subst.
    constructor; [eapply word_le_trans; eassumption | now apply IH].
Qed.

Lemma bits_le_length s s' : bits_le s s' -> length s = length s'.
Proof. unfold bits_le. induction 1; cbn; congruence. Qed.

Lemma bits_le_lookup s s' (i : nat) w :
  bits_le s s' -> s !! i = Some w -> exists w', s' !! i = Some w' /\ word_le w w'.
Proof.
  unfold bits_le. intros H. revert i.
  induction H as [| x y s s' Hxy H IH]; intros i Hi; [discriminate |].
  destruct i as [| i]; cbn in *.
  - injection Hi as <-. eauto.
  - now apply IH.
Qed.

Lemma bits_le_insert s (i : nat) w m :
  s !! i = Some w -> bits_le s (<[i := Z.lor w m]> s).
Proof.
  unfold bits_le. revert i. induction s as [| x s IH]; intros i Hi; [discriminate |].
  destruct i as [| i]; cbn in *.
  - injection Hi as ->. constructor; [apply word_le_lor | apply bits_le_refl].
  - constructor; [apply word_le_refl | now apply IH].
Qed.

Lemma Filter_le_refl bf : Filter_le bf bf.
Proof. unfold Filter_le. auto 6 using bits_le_refl. Qed.

Lemma Filter_le_trans bf1 bf2 bf3 :
  Filter_le bf1 bf2 -> Filter_le bf2 bf3 -> Filter_le bf1 bf3.
Proof.
  unfold Filter_le. intros (? & ? & ? & ? & ?) (? & ? & ? & ? & ?).
  repeat split; try congruence. eapply bits_le_trans; eassumption.
Qed.

(** ** Buckets: reading and writing *)

Lemma word_at_Some s i w :
  word_at s i = Some w <-> 0 <= i /\ s !! Z.to_nat i = Some w.
Proof.
  unfold word_at. destruct (Z.ltb_spec i 0); split.
  - discriminate.
  - intros [? _]. lia.
  - auto.
  - now intros [_ ?].
Qed.

Lemma word_at_length s s' i :
  length s = length s' -> word_at s i = None -> word_at s' i = None.
Proof.
  unfold word_at. destruct (i <? 0); [reflexivity |].
  rewrite !lookup_ge_None. intros ->. auto.
Qed.

Lemma word_at_le s s' i w :
  bits_le s s' -> word_at s i = Some w ->
  exists w', word_at s' i = Some w' /\ word_le w w'.
Proof.
  intros Hle [Hi Hw]%word_at_Some.
  destruct (bits_le_lookup _ _ _ _ Hle Hw) as (w' & Hw' & Hww).
  exists w'. split; [apply word_at_Some; auto | exact Hww].
Qed.

Lemma or_store_le index mask bf : Filter_le bf (snd (or_store index mask bf)).
Proof.
  unfold or_store. destruct (word_at (bitstore bf) index) as [w |] eqn:Hw; cbn.
  - apply word_at_Some in Hw as [_ Hw].
    unfold Filter_le; cbn. repeat split. now apply bits_le_insert.
  - apply Filter_le_refl.
Qed.

(** ** The loop of Add *)

Lemma Add_loop_cons p rest bf :
  Add_loop (p :: rest) bf =
    match word_at (bitstore bf) (fst (bitlocation p 64)) with
    | Some w =>
        Add_loop rest
          (set_bitstore
             (<[Z.to_nat (fst (bitlocation p 64)) :=
                  Z.lor w (bit_mask (snd (bitlocation p 64)))]> (bitstore bf)) bf)
    | None => (Panic IndexOutOfRange, bf)
    end.
Proof.
  cbn [Add_loop]. destruct (bitlocation p 64) as [index offset]. cbn [fst snd].
  unfold bind, or_store. now destruct (word_at (bitstore bf) index).
Qed.

Lemma Add_loop_le pos : forall bf, Filter_le bf (snd (Add_loop pos bf)).
Proof.
  induction pos as [| p rest IH]; intros bf.
  - apply Filter_le_refl.
  - rewrite Add_loop_cons.
    destruct (word_at (bitstore bf) (fst (bitlocation p 64))) as [w |] eqn:Hw.
    + eapply Filter_le_trans; [| apply IH].
      apply word_at_Some in Hw as [_ Hw].
      unfold Filter_le; cbn. repeat split. now apply bits_le_insert.
    + apply Filter_le_refl.
Qed.

(** Running the loop again on a filter that has all the bits of its first
    run changes nothing, and ends the same way. *)
Lemma Add_loop_absorb pos : forall bf bf',
  Filter_le (snd (Add_loop pos bf)) bf' ->
  Add_loop pos bf' = (fst (Add_loop pos bf), bf').
Proof.
  induction pos as [| p rest IH]; intros bf bf' Hle; [reflexivity |].
  rewrite Add_loop_cons in Hle. rewrite !Add_loop_cons.
  set (index := fst (bitlocation p 64)) in *.
  set (mask := bit_mask (snd (bitlocation p 64))) in *.
  destruct (word_at (bitstore bf) index) as [w |] eqn:Hw.
  - set (bf1 := set_bitstore _ bf) in *.
    assert (H1 : Filter_le bf1 bf')
      by (eapply Filter_le_trans; [apply Add_loop_le | exact Hle]).
    destruct H1 as (_ & _ & _ & _ & Hb). cbn in Hb.
    pose proof Hw as [Hi Hw']%word_at_Some.
    assert (Hl : (Z.to_nat index < length (bitstore bf))%nat)
      by (eapply lookup_lt_Some; exact Hw').
    destruct (bits_le_lookup _ _ (Z.to_nat index) (Z.lor w mask) Hb) as (w' & Hw1 & Hww).
    { now apply list_lookup_insert_eq. }
    assert (Hat : word_at (bitstore bf') index = Some w') by (apply word_at_Some; auto).
    rewrite Hat. rewrite (lor_absorb _ _ _ Hww).
    rewrite list_insert_id by exact Hw1.
    replace (set_bitstore (bitstore bf') bf') with bf' by (now destruct bf').
    now apply IH.
  - cbn in Hle. destruct Hle as (_ & _ & _ & _ & Hb).
    rewrite (word_at_length _ _ _ (bits_le_length _ _ Hb) Hw). reflexivity.
Qed.

(** ** Bits at positions *)

(** For a position of the uint64 range, the bucket and the mask the loops
    work with are the quotient by 64 and the power of two of the remainder. *)
Lemma position_mask p :
  Int.is_uint64 p ->
  fst (bitlocation p 64) = p / 64 /\
  bit_mask (snd (bitlocation p 64)) = 2 ^ (p mod 64) /\ 0 <= p mod 64 < 64.
Proof.
  intros Hp. rewrite (bitlocation_64 p Hp). cbn [fst snd].
  pose proof (Z.mod_pos_bound p 64 ltac:(lia)) as Hm.
  repeat split; try lia. now apply bit_mask_pow2.
Qed.

Lemma bit_of_le bf bf' p :
  Filter_le bf bf' -> bit_of bf p = Some true -> bit_of bf' p = Some true.
Proof.
  intros (_ & _ & _ & _ & Hb). unfold bit_of.
  destruct (word_at (bitstore bf) (p / 64)) as [w |] eqn:Hw; [| discriminate].
  destruct (word_at_le _ _ _ _ Hb Hw) as (w' & -> & Hww).
  intros [= Ht]. now rewrite (Hww _ Ht).
Qed.

Lemma Add_loop_cons_bit p rest bf :
  Int.is_uint64 p ->
  Add_loop (p :: rest) bf =
    match word_at (bitstore bf) (p / 64) with
    | Some w =>
        Add_loop rest
          (set_bitstore
             (<[Z.to_nat (p / 64) := Z.lor w (2 ^ (p mod 64))]> (bitstore bf)) bf)
    | None => (Panic IndexOutOfRange, bf)
    end.
Proof.
  intros Hp. rewrite Add_loop_cons.
  destruct (position_mask p Hp) as (-> & -> & _). reflexivity.
Qed.

(** When the loop of Add comes to its end, every position has its bit set. *)
Lemma Add_loop_sets pos : forall bf,
  Forall Int.is_uint64 pos ->
  fst (Add_loop pos bf) = Ok tt ->
  Forall (fun p => bit_of (snd (Add_loop pos bf)) p = Some true) pos.
Proof.
  induction pos as [| p rest IH]; intros bf Hpos Hok; [constructor |].
  inversion Hpos as [| ? ? Hp Hrest]; subst.
  rewrite (Add_loop_cons_bit p rest bf Hp) in Hok |- *.
  destruct (word_at (bitstore bf) (p / 64)) as [w |] eqn:Hw; [| discriminate].
  set (bf1 := set_bitstore _ bf) in *.
  constructor; [| now apply IH].
  apply (bit_of_le bf1); [apply Add_loop_le |].
  apply word_at_Some in Hw as [Hi Hw].
  pose proof (Z.mod_pos_bound p 64 ltac:(lia)) as Hm.
  unfold bit_of, bf1; cbn.
  assert (Hat : word_at (<[Z.to_nat (p / 64) := Z.lor w (2 ^ (p mod 64))]> (bitstore bf))
                  (p / 64) = Some (Z.lor w (2 ^ (p mod 64)))).
  { apply word_at_Some. split; [exact Hi |].
    apply list_lookup_insert_eq. eapply lookup_lt_Some; exact Hw. }
  rewrite Hat, Z.lor_spec, Z.pow2_bits_true by lia. now rewrite orb_true_r.
Qed.

(** ** The loop of Has *)

Lemma Has_loop_cons p rest bf :
  Has_loop (p :: rest) bf =
    match word_at (bitstore bf) (fst (bitlocation p 64)) with
    | Some w =>
        if Z.land w (bit_mask (snd (bitlocation p 64))) =? 0 then (Ok false, bf)
        else Has_loop rest bf
    | None => (Panic IndexOutOfRange, bf)
    end.
Proof.
  cbn [Has_loop]. destruct (bitlocation p 64) as [index offset]. cbn [fst snd].
  unfold bind, load. destruct (word_at (bitstore bf) index) as [w |]; [| reflexivity].
  now destruct (Z.land w (bit_mask offset) =? 0).
Qed.

Lemma Has_loop_cons_bit p rest bf :
  Int.is_uint64 p ->
  Has_loop (p :: rest) bf =
    match bit_of bf p with
    | Some true => Has_loop rest bf
    | Some false => (Ok false, bf)
    | None => (Panic IndexOutOfRange, bf)
    end.
Proof.
  intros Hp. rewrite Has_loop_cons.
  destruct (position_mask p Hp) as (-> & -> & Hm). unfold bit_of.
  destruct (word_at (bitstore bf) (p / 64)) as [w |]; [| reflexivity].
  rewrite land_pow2_eqb by lia. now destruct (Z.testbit w (p mod 64)).
Qed.

(** The loop of Has writes nothing. *)
Lemma Has_loop_readonly pos : forall bf, snd (Has_loop pos bf) = bf.
Proof.
  induction pos as [| p rest IH]; intros bf; [reflexivity |].
  rewrite Has_loop_cons.
  destruct (word_at (bitstore bf) (fst (bitlocation p 64))) as [w |]; [| reflexivity].
  destruct (Z.land w (bit_mask (snd (bitlocation p 64))) =? 0); [reflexivity | apply IH].
Qed.

(** It answers true exactly when every position has its bit set. *)
Lemma Has_loop_true pos : forall bf,
  Forall Int.is_uint64 pos ->
  (fst (Has_loop pos bf) = Ok true <->
   Forall (fun p => bit_of bf p = Some true) pos).
Proof.
  induction pos as [| p rest IH]; intros bf Hpos.
  - split; [constructor | reflexivity].
  - inversion Hpos as [| ? ? Hp Hrest]; subst.
    rewrite (Has_loop_cons_bit p rest bf Hp).
    destruct (bit_of bf p) as [[|] |] eqn:Hb; cbn.
    + rewrite (IH bf Hrest). split.
      * intros H. now constructor.
      * now inversion 1.
    + split; [discriminate | inversion 1; congruence].
    + split; [discriminate | inversion 1; congruence].
Qed.

(** It answers false at the first clear bit, whatever comes after it. *)
Lemma Has_loop_false pre p post bf :
  Forall Int.is_uint64 (pre ++ [p]) ->
  Forall (fun q => bit_of bf q = Some true) pre ->
  bit_of bf p = Some false ->
  Has_loop (pre ++ p :: post) bf = (Ok false, bf).
Proof.
  induction pre as [| q pre IH]; intros Hpos Hpre Hp; cbn [app] in *.
  - inversion Hpos; subst. rewrite Has_loop_cons_bit by assumption. now rewrite Hp.
  - inversion Hpos; subst. inversion Hpre as [| ? ? Hq Hpre']; subst.
    rewrite Has_loop_cons_bit by assumption. rewrite Hq. now apply IH.
Qed.

(** ** The digest and its hexadecimal form *)

Lemma Sum256_length msg : length (SHA256.Sum256 msg) = 32%nat.
Proof. reflexivity. Qed.

Lemma byte_val_range b : 0 <= byte_val b < 256.
Proof.
  unfold byte_val. pose proof (Byte.to_N_bounded b) as H.
  split; [apply N2Z.is_nonneg | lia].
Qed.

Lemma Sprintf_x_length bs : String.length (Sprintf_x bs) = (2 * length bs)%nat.
Proof. induction bs as [| b bs IH]; cbn; [reflexivity | rewrite IH; lia]. Qed.

(** The first [2k] characters print the first [k] bytes. *)
Lemma Sprintf_x_prefix (k : nat) : forall bs,
  (k <= length bs)%nat ->
  substring 0 (2 * k) (Sprintf_x bs) = Sprintf_x (firstn k bs).
Proof.
  induction k as [| k IH]; intros bs Hk.
  - cbn. now destruct (Sprintf_x bs).
  - destruct bs as [| b bs]; cbn in Hk; [lia |].
    replace (2 * S k)%nat with (S (S (2 * k))) by lia.
    cbn [Sprintf_x substring firstn]. rewrite IH by lia. reflexivity.
Qed.

Lemma hex_digit_cases d :
  0 <= d < 16 ->
  d = 0 \/ d = 1 \/ d = 2 \/ d = 3 \/ d = 4 \/ d = 5 \/ d = 6 \/ d = 7 \/
  d = 8 \/ d = 9 \/ d = 10 \/ d = 11 \/ d = 12 \/ d = 13 \/ d = 14 \/ d = 15.
Proof. lia. Qed.

(** [strconv] reads a digit printed by [%x] as the digit it was. *)
Lemma digit_hex_digit d :
  0 <= d < 16 -> strconv.digit (ascii_val (hex_digit d)) = Some d.
Proof.
  intros H. destruct (hex_digit_cases d H) as
    [-> | [-> | [-> | [-> | [-> | [-> | [-> | [-> | [-> | [-> | [-> | [-> |
     [-> | [-> | [-> | ->]]]]]]]]]]]]]]]; reflexivity.
Qed.

(** So does the specification. *)
Lemma hex_char_value_hex_digit d :
  0 <= d < 16 -> hex_char_value (hex_digit d) = d.
Proof.
  intros H. destruct (hex_digit_cases d H) as
    [-> | [-> | [-> | [-> | [-> | [-> | [-> | [-> | [-> | [-> | [-> | [-> |
     [-> | [-> | [-> | ->]]]]]]]]]]]]]]]; reflexivity.
Qed.

(** ** ParseUint on what [%x] printed *)

(** One digit more, while the value stays below 2^64. *)
Lemma parse_digits_step s0 d rest acc :
  0 <= d < 16 -> 0 <= acc -> 16 * acc + d < 2 ^ 64 ->
  strconv.parse_digits s0 (String (hex_digit d) rest) 16 cutoff16 Int.max_uint64 acc =
  strconv.parse_digits s0 rest 16 cutoff16 Int.max_uint64 (16 * acc + d).
Proof.
  intros Hd Hacc Hlt. cbn [strconv.parse_digits].
  rewrite (digit_hex_digit d Hd).
  change (Int.to_byte 16) with 16. change cutoff16 with (2 ^ 60).
  change Int.max_uint64 with (2 ^ 64 - 1).
  destruct (Z.geb_spec d 16); [lia |].
  destruct (Z.geb_spec acc (2 ^ 60)); [lia |].
  rewrite (to_uint64_id (acc * 16)) by (unfold Int.is_uint64; lia).
  rewrite (to_uint64_id (acc * 16 + d)) by (unfold Int.is_uint64; lia).
  destruct (Z.ltb_spec (acc * 16 + d) (acc * 16)); [lia |].
  destruct (Z.gtb_spec (acc * 16 + d) (2 ^ 64 - 1)); [lia |].
  cbn [orb]. f_equal. lia.
Qed.

Lemma hex_value_from_step d rest acc :
  0 <= d < 16 ->
  hex_value_from (String (hex_digit d) rest) acc = hex_value_from rest (16 * acc + d).
Proof. intros Hd. cbn [hex_value_from]. now rewrite hex_char_value_hex_digit. Qed.

(** The digits of [bs] after a value [acc]: [ParseUint] reads what the
    specification reads, and the value grows by 8 bits a byte. *)
Lemma parse_digits_Sprintf_x s0 bs : forall acc,
  0 <= acc -> (acc + 1) * 256 ^ Z.of_nat (length bs) <= 2 ^ 64 ->
  strconv.parse_digits s0 (Sprintf_x bs) 16 cutoff16 Int.max_uint64 acc =
    (hex_value_from (Sprintf_x bs) acc, None) /\
  acc * 256 ^ Z.of_nat (length bs) <= hex_value_from (Sprintf_x bs) acc
    < (acc + 1) * 256 ^ Z.of_nat (length bs).
Proof.
  induction bs as [| b bs IH]; intros acc Hacc Hbound.
  - cbn. split; [reflexivity | lia].
  - cbn [Sprintf_x length] in *. rewrite Nat2Z.inj_succ, Z.pow_succ_r in * by lia.
    pose proof (byte_val_range b) as Hb.
    pose proof (Z.div_mod (byte_val b) 16 ltac:(lia)) as Hdm.
    pose proof (Z.mod_pos_bound (byte_val b) 16 ltac:(lia)) as Hm.
    assert (Hq : 0 <= byte_val b / 16 < 16)
      by (split; [apply Z.div_pos; lia | apply Z.div_lt_upper_bound; lia]).
    set (hi := byte_val b / 16) in *. set (lo := byte_val b mod 16) in *.
    assert (Hpow : 0 < 256 ^ Z.of_nat (length bs)) by (apply Z.pow_pos_nonneg; lia).
    set (P := 256 ^ Z.of_nat (length bs)) in *.
    clearbody hi lo P.
    assert (Hacc' : 16 * (16 * acc + hi) + lo = 256 * acc + byte_val b) by lia.
    assert (Hfit : (256 * acc + byte_val b + 1) * P <= 2 ^ 64) by nia.
    rewrite parse_digits_step by nia.
    rewrite parse_digits_step by nia.
    rewrite !hex_value_from_step by lia.
    rewrite Hacc'.
    destruct (IH (256 * acc + byte_val b) ltac:(lia) Hfit) as [-> Hr].
    split; [reflexivity | nia].
Qed.

(** [ParseUint] never fails on the first 16 characters of a digest. *)
Lemma ParseUint_digest_prefix bs :
  (8 <= length bs)%nat ->
  strconv.ParseUint (substring 0 16 (Sprintf_x bs)) 16 64 =
    (hex_value (substring 0 16 (Sprintf_x bs)), None) /\
  0 <= hex_value (substring 0 16 (Sprintf_x bs)) < 2 ^ 64.
Proof.
  intros Hlen.
  replace (substring 0 16 (Sprintf_x bs)) with (Sprintf_x (firstn 8 bs))
    by (symmetry; exact (Sprintf_x_prefix 8 bs Hlen)).
  assert (Hl : length (firstn 8 bs) = 8%nat) by (rewrite length_firstn; lia).
  destruct (parse_digits_Sprintf_x (Sprintf_x (firstn 8 bs)) (firstn 8 bs) 0
              ltac:(lia) ltac:(rewrite Hl; vm_compute; discriminate)) as [Hp Hr].
  rewrite Hl in Hr. split; [| unfold hex_value; change (256 ^ Z.of_nat 8) with (2 ^ 64) in Hr; lia].
  unfold strconv.ParseUint, hex_value.
  destruct (firstn 8 bs) as [| b l] eqn:Hf; [discriminate |].
  cbn [Sprintf_x] in *. exact Hp.
Qed.

(** ** hash *)

(** [hash] is total on a non-zero bit length, and is what the specification
    derives. *)
Lemma hash_eq b bitlen :
  bitlen <> 0 ->
  hash b bitlen =
    Ok (hex_value (substring 0 16 (Sprintf_x (SHA256.Sum256 b))) mod bitlen).
Proof.
  intros Hm. unfold hash.
  rewrite Sprintf_x_length, Sum256_length. cbn [Nat.ltb Nat.leb Nat.mul Nat.add].
  destruct (ParseUint_digest_prefix (SHA256.Sum256 b)) as [-> _].
  { rewrite Sum256_length. lia. }
  now destruct (Z.eqb_spec bitlen 0).
Qed.

Lemma hash_zero b : hash b 0 = Panic DivideByZero.
Proof.
  unfold hash.
  rewrite Sprintf_x_length, Sum256_length. cbn [Nat.ltb Nat.leb Nat.mul Nat.add].
  destruct (ParseUint_digest_prefix (SHA256.Sum256 b)) as [-> _].
  { rewrite Sum256_length. lia. }
  reflexivity.
Qed.

(** ** bitpositions *)

(** The buffer after its last byte is set to [c]. *)
Lemma buffer_set_index (element : list byte) c c' :
  <[length element := c']> (element ++ [c])%list = (element ++ [c'])%list.
Proof.
  rewrite insert_app_r_alt by lia. now rewrite Nat.sub_diag.
Qed.

Lemma hash_buffer element i m :
  m <> 0 ->
  hash (element ++ [byte_of_Z i])%list m = Ok (derived_position element i m).
Proof. intros Hm. unfold derived_position. now apply hash_eq. Qed.

(** The loop, with [done] the positions it has written: the ones it goes on
    to write are the derived positions of the indices that are left. *)
Lemma bitpositions_loop_eq element m (fuel : nat) : forall (done : list Z) c,
  m <> 0 ->
  (length done + fuel <= 255)%nat ->
  bitpositions_loop fuel (Z.of_nat (length done)) (length element) m
      (element ++ [c])%list (done ++ repeat 0 fuel)%list =
    Ok ((done ++ map (fun i => derived_position element (Z.of_nat i) m)
                    (seq (length done) fuel))%list, None).
Proof.
  induction fuel as [| fuel IH]; intros done c Hm Hlen.
  - cbn. reflexivity.
  - cbn [bitpositions_loop repeat seq map].
    rewrite buffer_set_index, (hash_buffer _ _ m Hm).
    set (h := derived_position element (Z.of_nat (length done)) m).
    rewrite Nat2Z.id.
    rewrite insert_app_r_alt, Nat.sub_diag by lia. cbn [insert list_insert].
    rewrite to_byte_id by (unfold Int.is_byte; lia).
    replace (Z.of_nat (length done) + 1) with (Z.of_nat (length (done ++ [h])%list))
      by (rewrite length_app; cbn; lia).
    replace (done ++ h :: repeat 0 fuel)%list with ((done ++ [h]) ++ repeat 0 fuel)%list
      by (now rewrite <- app_assoc).
    rewrite IH by (try rewrite length_app; cbn; auto; lia).
    rewrite length_app, <- app_assoc. cbn [length app].
    now replace (length done + 1)%nat with (S (length done)) by lia.
Qed.

(** [bitpositions] on a non-zero bit length returns the derived positions,
    and no error. *)
Lemma bitpositions_eq element hashqty bitlen :
  Int.is_byte hashqty -> bitlen <> 0 ->
  bitpositions element hashqty bitlen =
    Ok (derived_positions element hashqty bitlen, None).
Proof.
  unfold Int.is_byte. intros Hk Hm. unfold bitpositions, derived_positions.
  apply (bitpositions_loop_eq element bitlen (Z.to_nat hashqty) [] x00 Hm).
  cbn. lia.
Qed.

(** On a zero bit length the first turn of the loop divides by zero; with
    no hash function there is no turn. *)
Lemma bitpositions_zero element hashqty :
  bitpositions element hashqty 0 =
    if (0 <? hashqty) then Panic DivideByZero else Ok ([], None).
Proof.
  unfold bitpositions. destruct (Z.ltb_spec 0 hashqty) as [H | H].
  - destruct (Z.to_nat hashqty) as [| k] eqn:Hk; [lia |].
    cbn [bitpositions_loop]. now rewrite hash_zero.
  - replace (Z.to_nat hashqty) with 0%nat by lia. reflexivity.
Qed.

Lemma derived_position_range element i m :
  0 < m -> 0 <= derived_position element i m < m.
Proof. intros Hm. unfold derived_position. apply Z.mod_pos_bound. exact Hm. Qed.

Lemma derived_positions_length element k m :
  length (derived_positions element k m) = Z.to_nat k.
Proof. unfold derived_positions. now rewrite length_map, length_seq. Qed.

Lemma derived_positions_lookup element k m (i : nat) :
  (i < Z.to_nat k)%nat ->
  derived_positions element k m !! i = Some (derived_position element (Z.of_nat i) m).
Proof.
  intros Hi. unfold derived_positions.
  rewrite list_lookup_fmap, lookup_seq_lt by exact Hi. reflexivity.
Qed.

Lemma derived_positions_range element k m :
  0 < m -> Forall (fun p => 0 <= p < m) (derived_positions element k m).
Proof.
  intros Hm. unfold derived_positions.
  induction (seq 0 (Z.to_nat k)) as [| i l IH]; cbn [map]; constructor.
  - apply derived_position_range. exact Hm.
  - exact IH.
Qed.

(** The test vectors of the package: TestHash and TestBitpositions. *)
Example TestHash :
  hash (list_byte_of_string "test") 1000000 = Ok 842533 /\
  hash (list_byte_of_string "test") 18446744073709551615 = Ok 11495104353665842533 /\
  hash (list_byte_of_string "test0") 48 = Ok 8 /\
  hash (list_byte_of_string "test1") 48 = Ok 24 /\
  hash (list_byte_of_string "test2") 48 = Ok 17 /\
  hash (list_byte_of_string "test3") 48 = Ok 23.
Proof. repeat split; vm_compute; reflexivity. Qed.

Example TestBitpositions :
  bitpositions (list_byte_of_string "test") 4 48 = Ok ([7; 36; 32; 37], None).
Proof. vm_compute. reflexivity. Qed.

(** C3: for every element, hash count [k] (a byte) and bit length [m > 0],
    [bitpositions] returns exactly [k] positions and no error, each of them
    in [[0, m)], and position [i] is the one the specification derives: the
    index byte [i] appended to the element, the SHA-256 digest, its first 16
    hexadecimal characters read in base 16, reduced modulo [m]. For "test"
    with [k = 4] and [m = 48] the positions are [7; 36; 32; 37]. *)
Theorem bitpositions_spec element k m :
  Int.is_byte k -> 0 < m ->
  exists pos,
    bitpositions element k m = Ok (pos, None) /\
    length pos = Z.to_nat k /\
    Forall (fun p => 0 <= p < m) pos /\
    (forall i : nat, (i < Z.to_nat k)%nat ->
       pos !! i = Some (derived_position element (Z.of_nat i) m)) /\
    bitpositions (list_byte_of_string "test") 4 48 = Ok ([7; 36; 32; 37], None).
Proof.
  intros Hk Hm. exists (derived_positions element k m).
  split; [apply bitpositions_eq; [exact Hk | lia] |].
  split; [apply derived_positions_length |].
  split; [now apply derived_positions_range |].
  split; [intros i Hi; now apply derived_positions_lookup | exact TestBitpositions].
Qed.

Lemma bitpositions_spec_witness :
  exists pos,
    bitpositions (list_byte_of_string "bob@example.com") 7 958 = Ok (pos, None) /\
    length pos = Z.to_nat 7 /\
    Forall (fun p => 0 <= p < 958) pos /\
    (forall i : nat, (i < Z.to_nat 7)%nat ->
       pos !! i =
         Some (derived_position (list_byte_of_string "bob@example.com") (Z.of_nat i) 958)) /\
    bitpositions (list_byte_of_string "test") 4 48 = Ok ([7; 36; 32; 37], None).
Proof.
  apply (bitpositions_spec (list_byte_of_string "bob@example.com") 7 958).
  - unfold Int.is_byte. lia.
  - lia.
Defined.

(** ** Add and Has *)

(** The positions [Add] and [Has] work with are of the uint64 range. *)
Lemma bitpositions_uint64 element bf pos err :
  Filter_wf bf ->
  bitpositions element (hashqty bf) (bitlen bf) = Ok (pos, err) ->
  Forall Int.is_uint64 pos.
Proof.
  intros [Hm Hk]. destruct (Z.eq_dec (bitlen bf) 0) as [H0 | H0].
  - rewrite H0, bitpositions_zero. destruct (0 <? hashqty bf); [discriminate |].
    intros [= <- <-]. constructor.
  - rewrite (bitpositions_eq element _ _ Hk H0). intros [= <- <-].
    unfold Int.is_uint64 in *.
    eapply Forall_impl; [apply derived_positions_range; lia |].
    cbn beta. intros p Hp. lia.
Qed.

Lemma Add_le element bf : Filter_le bf (snd (Add element bf)).
Proof.
  unfold Add.
  destruct (bitpositions element (hashqty bf) (bitlen bf)) as [[pos [err |]] | err | q];
    cbn [snd]; try apply Filter_le_refl.
  apply Add_loop_le.
Qed.

Lemma Has_readonly element bf : snd (Has element bf) = bf.
Proof.
  unfold Has.
  destruct (bitpositions element (hashqty bf) (bitlen bf)) as [[pos [err |]] | err | q];
    cbn [snd]; try reflexivity.
  apply Has_loop_readonly.
Qed.

Lemma MustAdd_state element bf : snd (MustAdd element bf) = snd (Add element bf).
Proof. unfold MustAdd. now destruct (Add element bf) as [[[] | err | q] bf']. Qed.

Lemma MustHave_state element bf : snd (MustHave element bf) = bf.
Proof.
  unfold MustHave. pose proof (Has_readonly element bf) as H.
  now destruct (Has element bf) as [[b | err | q] bf'].
Qed.

Lemma Add_all_app es1 es2 bf : Add_all (es1 ++ es2) bf = Add_all es2 (Add_all es1 bf).
Proof. unfold Add_all. apply fold_left_app. Qed.

Lemma Add_all_le es : forall bf, Filter_le bf (Add_all es bf).
Proof.
  induction es as [| e es IH]; intros bf.
  - apply Filter_le_refl.
  - change (Add_all (e :: es) bf) with (Add_all es (snd (Add e bf))).
    eapply Filter_le_trans; [apply Add_le | apply IH].
Qed.

(** C1: for every filter (its fields in the range of their types, as for
    the ones [New] makes) and every element, if [Add] returns no error then
    [Has], called next, returns true and no error. *)
Theorem no_false_negatives bf element :
  Filter_wf bf ->
  fst (Add element bf) = Ok tt ->
  Has element (snd (Add element bf)) = (Ok true, snd (Add element bf)).
Proof.
  intros Hwf Hok.
  pose proof (Add_le element bf) as (_ & Hm & Hk & _ & _).
  unfold Has. rewrite <- Hm, <- Hk. unfold Add in *.
  pose proof (bitpositions_uint64 element bf) as Hpos.
  destruct (bitpositions element (hashqty bf) (bitlen bf)) as [[pos [err |]] | err | q];
    cbn [fst snd] in *; try discriminate.
  specialize (Hpos pos None Hwf eq_refl).
  pose proof (Add_loop_sets pos bf Hpos Hok) as Hset.
  apply (Has_loop_true pos _ Hpos) in Hset.
  pose proof (Has_loop_readonly pos (snd (Add_loop pos bf))) as Hro.
  destruct (Has_loop pos (snd (Add_loop pos bf))) as [r bf']; cbn [fst snd] in *.
  congruence.
Qed.

(** C4: for every filter and every element, [Add] called twice leaves the
    filter, and so its bit array, as [Add] called once leaves it. *)
Theorem Add_idempotent bf element :
  snd (Add element (snd (Add element bf))) = snd (Add element bf) /\
  bitstore (snd (Add element (snd (Add element bf)))) =
    bitstore (snd (Add element bf)).
Proof.
  assert (H : snd (Add element (snd (Add element bf))) = snd (Add element bf));
    [| split; [exact H | now rewrite H]].
  pose proof (Add_le element bf) as (_ & Hm & Hk & _ & _).
  unfold Add at 1. rewrite <- Hm, <- Hk. unfold Add.
  destruct (bitpositions element (hashqty bf) (bitlen bf)) as [[pos [err |]] | err | q];
    cbn [fst snd]; try reflexivity.
  rewrite (Add_loop_absorb pos bf (snd (Add_loop pos bf)) (Filter_le_refl _)).
  reflexivity.
Qed.

(** C5: every operation leaves each bit that is set as it is: [Add] and
    [MustAdd] only add bits, and change no other field; the bits after a
    run of adds contain the bits after any prefix of the run; [Has] and
    [MustHave] change nothing at all. *)
Theorem bits_monotone bf :
  (forall element, Filter_le bf (snd (Add element bf))) /\
  (forall element, Filter_le bf (snd (MustAdd element bf))) /\
  (forall es1 es2, Filter_le (Add_all es1 bf) (Add_all (es1 ++ es2) bf)) /\
  (forall element, snd (Has element bf) = bf) /\
  (forall element, snd (MustHave element bf) = bf).
Proof.
  split; [intros e; apply Add_le |].
  split; [intros e; rewrite MustAdd_state; apply Add_le |].
  split; [intros es1 es2; rewrite Add_all_app; apply Add_all_le |].
  split; [intros e; apply Has_readonly | intros e; apply MustHave_state].
Qed.

(** C6: [Has] derives the positions [Add] derives, [hashqty] of them;
    it returns false at the first position whose bit is clear, whatever the
    positions after it; it returns true exactly when the bits of all the
    positions are set; and it leaves the filter as it is. *)
Theorem Has_spec bf element :
  Filter_wf bf ->
  snd (Has element bf) = bf /\
  forall pos,
    bitpositions element (hashqty bf) (bitlen bf) = Ok (pos, None) ->
    length pos = Z.to_nat (hashqty bf) /\
    Add element bf = Add_loop pos bf /\
    Has element bf = Has_loop pos bf /\
    (forall pre p post,
       pos = (pre ++ p :: post)%list ->
       Forall (fun q => bit_of bf q = Some true) pre ->
       bit_of bf p = Some false ->
       Has element bf = (Ok false, bf)) /\
    (fst (Has element bf) = Ok true <->
     Forall (fun p => bit_of bf p = Some true) pos).
Proof.
  intros Hwf. split; [apply Has_readonly |]. intros pos Hpos.
  pose proof (bitpositions_uint64 element bf pos None Hwf Hpos) as Hu.
  assert (Hlen : length pos = Z.to_nat (hashqty bf)).
  { destruct Hwf as [Hm Hk]. destruct (Z.eq_dec (bitlen bf) 0) as [H0 | H0].
    - rewrite H0, bitpositions_zero in Hpos.
      destruct (Z.ltb_spec 0 (hashqty bf)); [discriminate |].
      injection Hpos as <-. cbn. lia.
    - rewrite (bitpositions_eq element _ _ Hk H0) in Hpos. injection Hpos as <-.
      apply derived_positions_length. }
  unfold Add, Has. rewrite Hpos.
  split; [exact Hlen |]. split; [reflexivity |]. split; [reflexivity |]. split.
  - intros pre p post -> Hpre Hp. apply Has_loop_false; [| exact Hpre | exact Hp].
    rewrite Forall_app in Hu |- *. destruct Hu as [Hu1 Hu2].
    split; [exact Hu1 |]. inversion Hu2; subst. constructor; [assumption | constructor].
  - now apply Has_loop_true.
Qed.

Lemma TestFilter_Add_bf_wf : Filter_wf TestFilter_Add_bf.
Proof. split; [unfold Int.is_uint64 | unfold Int.is_byte]; cbn; lia. Qed.

Lemma TestFilter_Has_bf_wf : Filter_wf TestFilter_Has_bf.
Proof. split; [unfold Int.is_uint64 | unfold Int.is_byte]; cbn; lia. Qed.

(** TestFilter_Add: the bits 7, 32, 36 and 37 of the only bucket. *)
Example TestFilter_Add :
  Add (list_byte_of_string "test") TestFilter_Add_bf = (Ok tt, TestFilter_Has_bf) /\
  210453397632 = 2 ^ 7 + 2 ^ 32 + 2 ^ 36 + 2 ^ 37.
Proof. split; vm_compute; reflexivity. Qed.

(** TestFilter_Has *)
Example TestFilter_Has :
  fst (Has (list_byte_of_string "test") TestFilter_Has_bf) = Ok true /\
  fst (Has (list_byte_of_string "test1") TestFilter_Has_bf) = Ok false /\
  fst (Has [] TestFilter_Has_bf) = Ok false.
Proof. repeat split; vm_compute; reflexivity. Qed.

Lemma no_false_negatives_witness :
  Has (list_byte_of_string "test")
      (snd (Add (list_byte_of_string "test") TestFilter_Add_bf)) =
    (Ok true, snd (Add (list_byte_of_string "test") TestFilter_Add_bf)).
Proof.
  apply (no_false_negatives TestFilter_Add_bf (list_byte_of_string "test")).
  - split; [unfold Int.is_uint64 | unfold Int.is_byte]; cbn; lia.
  - vm_compute. reflexivity.
Defined.

Lemma Has_spec_witness :
  snd (Has (list_byte_of_string "test1") TestFilter_Has_bf) = TestFilter_Has_bf /\
  forall pos,
    bitpositions (list_byte_of_string "test1") (hashqty TestFilter_Has_bf)
                 (bitlen TestFilter_Has_bf) = Ok (pos, None) ->
    length pos = Z.to_nat (hashqty TestFilter_Has_bf) /\
    Add (list_byte_of_string "test1") TestFilter_Has_bf = Add_loop pos TestFilter_Has_bf /\
    Has (list_byte_of_string "test1") TestFilter_Has_bf = Has_loop pos TestFilter_Has_bf /\
    (forall pre p post,
       pos = (pre ++ p :: post)%list ->
       Forall (fun q => bit_of TestFilter_Has_bf q = Some true) pre ->
       bit_of TestFilter_Has_bf p = Some false ->
       Has (list_byte_of_string "test1") TestFilter_Has_bf = (Ok false, TestFilter_Has_bf)) /\
    (fst (Has (list_byte_of_string "test1") TestFilter_Has_bf) = Ok true <->
     Forall (fun p => bit_of TestFilter_Has_bf p = Some true) pos).
Proof.
  apply (Has_spec TestFilter_Has_bf (list_byte_of_string "test1")).
  split; [unfold Int.is_uint64 | unfold Int.is_byte]; cbn; lia.
Defined.

(** ** Bounds of the buckets *)

Lemma word_at_in_range s i :
  0 <= i < Z.of_nat (length s) -> exists w, word_at s i = Some w.
Proof.
  intros Hi. destruct (lookup_lt_is_Some_2 s (Z.to_nat i) ltac:(lia)) as [w Hw].
  exists w. apply word_at_Some. split; [lia | exact Hw].
Qed.

Lemma position_bucket p m len :
  0 <= p < m -> m <= 64 * len -> 0 <= p / 64 < len.
Proof. intros Hp Hm. split; [apply Z.div_pos; lia | apply Z.div_lt_upper_bound; lia]. Qed.

(** On a filter whose buckets hold its bit length, the loop of Add over
    positions below the bit length comes to its end. *)
Lemma Add_loop_in_range pos : forall bf,
  Int.is_uint64 (bitlen bf) -> Filter_sized bf ->
  Forall (fun p => 0 <= p < bitlen bf) pos ->
  fst (Add_loop pos bf) = Ok tt.
Proof.
  induction pos as [| p rest IH]; intros bf Hm Hs Hpos; [reflexivity |].
  inversion Hpos as [| ? ? Hp Hrest]; subst.
  unfold Int.is_uint64, Filter_sized in *.
  rewrite Add_loop_cons_bit by (unfold Int.is_uint64; lia).
  destruct (word_at_in_range (bitstore bf) (p / 64)) as [w ->].
  { eapply position_bucket; eassumption. }
  apply IH; unfold Int.is_uint64, Filter_sized; cbn; try assumption.
  now rewrite length_insert.
Qed.

Lemma Has_loop_in_range pos : forall bf,
  Int.is_uint64 (bitlen bf) -> Filter_sized bf ->
  Forall (fun p => 0 <= p < bitlen bf) pos ->
  exists b, fst (Has_loop pos bf) = Ok b.
Proof.
  induction pos as [| p rest IH]; intros bf Hm Hs Hpos; [now exists true |].
  inversion Hpos as [| ? ? Hp Hrest]; subst.
  unfold Int.is_uint64, Filter_sized in *.
  rewrite Has_loop_cons_bit by (unfold Int.is_uint64; lia).
  unfold bit_of.
  destruct (word_at_in_range (bitstore bf) (p / 64)) as [w ->].
  { eapply position_bucket; eassumption. }
  destruct (Z.testbit w (p mod 64)); [| now exists false].
  now apply IH.
Qed.

(** On such a filter [Add] and [Has] never leave the buckets: they return
    without an error, unless a zero bit length stops the derivation of the
    positions, before any bucket is touched. *)
Lemma sized_in_bounds bf element :
  Filter_wf bf -> Filter_sized bf ->
  (forall pos err,
     bitpositions element (hashqty bf) (bitlen bf) = Ok (pos, err) ->
     Forall (fun p => 0 <= fst (bitlocation p 64) < Z.of_nat (length (bitstore bf))) pos) /\
  fst (Add element bf) <> Panic IndexOutOfRange /\
  fst (Has element bf) <> Panic IndexOutOfRange /\
  (bitlen bf <> 0 ->
   fst (Add element bf) = Ok tt /\ exists b, fst (Has element bf) = Ok b).
Proof.
  intros [Hm Hk] Hs. unfold Add, Has.
  destruct (Z.eq_dec (bitlen bf) 0) as [H0 | H0].
  - rewrite H0, bitpositions_zero. destruct (0 <? hashqty bf); cbn [fst].
    + split; [intros pos err H; discriminate |].
      split; [discriminate |]. split; [discriminate |]. intros Hne. congruence.
    + split; [intros pos err [= <- <-]; constructor |].
      split; [discriminate |]. split; [discriminate |]. intros Hne. congruence.
  - rewrite (bitpositions_eq element _ _ Hk H0).
    assert (Hr : Forall (fun p => 0 <= p < bitlen bf)
                   (derived_positions element (hashqty bf) (bitlen bf)))
      by (apply derived_positions_range; unfold Int.is_uint64 in Hm; lia).
    pose proof (Add_loop_in_range _ bf Hm Hs Hr) as Ha.
    destruct (Has_loop_in_range _ bf Hm Hs Hr) as [b Hb].
    rewrite Ha, Hb.
    split; [| split; [discriminate | split; [discriminate | eauto]]].
    intros pos err [= <- <-]. eapply Forall_impl; [exact Hr |].
    cbn beta. intros p Hp. unfold Int.is_uint64, Filter_sized in *.
    rewrite bitlocation_64 by (unfold Int.is_uint64; lia). cbn [fst].
    eapply position_bucket; eassumption.
Qed.

(** ** New *)

Lemma uint64_of_float_range x : Int.is_uint64 (uint64_of_float x).
Proof.
  unfold uint64_of_float. destruct (float_trunc x); [apply to_uint64_range |].
  unfold Int.is_uint64. lia.
Qed.

Lemma byte_of_float_range x : Int.is_byte (byte_of_float x).
Proof.
  unfold byte_of_float. destruct (float_trunc x); [apply to_byte_range |].
  unfold Int.is_byte. lia.
Qed.

(** The number of buckets [New] allocates for a bit length. *)
Lemma buckets_ceil m :
  Int.is_uint64 m ->
  (if negb (m mod 64 =? 0) then Int.to_uint64 (m / 64 + 1) else m / 64) = (m + 63) / 64.
Proof.
  unfold Int.is_uint64. intros Hm.
  destruct (Z.eqb_spec (m mod 64) 0) as [H0 | H0]; cbn [negb].
  - Z.to_euclidean_division_equations. lia.
  - rewrite to_uint64_id
      by (unfold Int.is_uint64; Z.to_euclidean_division_equations; lia).
    Z.to_euclidean_division_equations. lia.
Qed.

(** [make] on a length in the range of its type: the limit decides. *)
Lemma makeslice_uint64 len :
  Int.is_uint64 len ->
  makeslice len =
    if maxAlloc <? 8 * len then Panic MakeSliceLenOutOfRange
    else Ok (repeat 0 (Z.to_nat len)).
Proof.
  intros Hlen. unfold makeslice, Int.is_uint64, Int.max_uint64, maxAlloc, Int.to_int in *.
  change (2 ^ 64) with 18446744073709551616 in *.
  change (2 ^ 63) with 9223372036854775808 in *.
  change (2 ^ 48) with 281474976710656 in *.
  destruct (Z.ltb_spec 281474976710656 (8 * len)) as [H | H].
  - now rewrite !orb_true_r.
  - rewrite !orb_false_r.
    destruct (Z.ltb_spec ((len + 9223372036854775808) mod 18446744073709551616
                          - 9223372036854775808) 0) as [H1 | H1];
      destruct (Z.ltb_spec (18446744073709551616 - 1) (8 * len)) as [H2 | H2];
      try reflexivity; exfalso; revert H1 || revert H2;
      Z.to_euclidean_division_equations; lia.
Qed.

(** The buckets [New] asks [make] for are in the range of a [uint64]. *)
Lemma buckets_uint64 m : Int.is_uint64 m -> Int.is_uint64 ((m + 63) / 64).
Proof.
  unfold Int.is_uint64. change (2 ^ 64) with 18446744073709551616.
  intros Hm. Z.to_euclidean_division_equations. lia.
Qed.

(** [New] on arguments that pass its two checks. *)
Lemma New_checked n prob :
  n <> 0 -> (prob <=? 0)%float = false ->
  New n prob =
    if maxAlloc <? 8 * ((optimalBitLen n prob + 63) / 64)
    then Panic MakeSliceLenOutOfRange
    else Ok {| prob := prob; bitlen := optimalBitLen n prob;
               hashqty := optimalHashQty prob; n := n;
               bitstore := repeat 0 (Z.to_nat ((optimalBitLen n prob + 63) / 64)) |}.
Proof.
  intros Hn Hp. unfold New. apply Z.eqb_neq in Hn. rewrite Hn, Hp.
  rewrite buckets_ceil by apply uint64_of_float_range.
  rewrite makeslice_uint64 by apply buckets_uint64, uint64_of_float_range.
  now destruct (maxAlloc <? 8 * ((optimalBitLen n prob + 63) / 64)).
Qed.

(** What a successful [New] returns. *)
Lemma New_Ok n prob bf :
  New n prob = Ok bf ->
  n <> 0 /\ (prob <=? 0)%float = false /\
  bf = {| prob := prob; bitlen := optimalBitLen n prob;
          hashqty := optimalHashQty prob; n := n;
          bitstore := repeat 0 (Z.to_nat ((optimalBitLen n prob + 63) / 64)) |}.
Proof.
  destruct (Z.eq_dec n 0) as [-> | Hn];
    [unfold New; rewrite Z.eqb_refl; discriminate |].
  destruct (prob <=? 0)%float eqn:Hp.
  - unfold New. apply Z.eqb_neq in Hn. rewrite Hn, Hp. discriminate.
  - rewrite (New_checked n prob Hn Hp).
    destruct (maxAlloc <? 8 * ((optimalBitLen n prob + 63) / 64)); [discriminate |].
    intros [= <-]. auto.
Qed.

(** A filter [New] returns is within the allocation limit. *)
Lemma New_Ok_alloc n prob bf :
  New n prob = Ok bf -> 8 * ((bitlen bf + 63) / 64) <= maxAlloc.
Proof.
  intros HNew. pose proof (New_Ok _ _ _ HNew) as (Hn & Hp & E).
  rewrite (New_checked n prob Hn Hp) in HNew.
  destruct (Z.ltb_spec maxAlloc (8 * ((optimalBitLen n prob + 63) / 64)));
    [discriminate |].
  rewrite E. cbn [bitlen]. assumption.
Qed.

Lemma New_wf n prob bf : New n prob = Ok bf -> Filter_wf bf /\ Filter_sized bf.
Proof.
  intros (_ & _ & ->)%New_Ok. unfold Filter_wf, Filter_sized. cbn.
  pose proof (uint64_of_float_range (math.Ceil (optLen n prob))) as Hm.
  fold (optimalBitLen n prob) in Hm.
  repeat split; try apply Hm; try apply byte_of_float_range.
  rewrite repeat_length. unfold Int.is_uint64 in Hm.
  Z.to_euclidean_division_equations. lia.
Qed.

(** A positive float is not less than or equal to zero. *)
Lemma float_pos_not_le x : (0 <? x)%float = true -> (x <=? 0)%float = false.
Proof.
  rewrite ltb_spec, leb_spec. change (Prim2SF 0) with (S754_zero false).
  unfold SFltb, SFleb. destruct (Prim2SF x) as [s | [|] | | [|] m e]; cbn; congruence.
Qed.

(** C2, as stated, fails: [New] accepts the probability 2, for which the
    bit length wraps around to 2^64 - 1, and [make] refuses the 2^58
    buckets: no filter comes back. *)
Lemma New_makeslice_panic :
  0 < 1 /\ (0 <? 2)%float = true /\
  optimalBitLen 1 2 = 2 ^ 64 - 1 /\
  New 1 2 = Panic MakeSliceLenOutOfRange /\
  ~ (exists bf, New 1 2 = Ok bf).
Proof.
  assert (H : New 1 2 = Panic MakeSliceLenOutOfRange) by (vm_compute; reflexivity).
  repeat split; try (vm_compute; reflexivity); try exact H.
  intros [bf Hbf]. rewrite H in Hbf. discriminate Hbf.
Qed.

(** C2 (amended): [New] fails with [ErrZeroElements] for every call with
    [n = 0]; it fails with [ErrProbability] for every call with [n > 0] and
    [prob <= 0]; for every [n > 0] and [prob > 0] it returns no error: it
    returns a filter when the buckets of the computed bit length, 8 bytes
    each, are within the allocation limit of [make], and it panics with a
    slice length out of range when they are not. *)
Theorem New_validation n prob :
  (n = 0 -> New n prob = Err ErrZeroElements) /\
  (0 < n -> (prob <=? 0)%float = true -> New n prob = Err ErrProbability) /\
  (0 < n -> (0 <? prob)%float = true ->
   8 * ((optimalBitLen n prob + 63) / 64) <= maxAlloc ->
   exists bf, New n prob = Ok bf) /\
  (0 < n -> (0 <? prob)%float = true ->
   maxAlloc < 8 * ((optimalBitLen n prob + 63) / 64) ->
   New n prob = Panic MakeSliceLenOutOfRange).
Proof.
  split; [| split; [| split]].
  - intros ->. reflexivity.
  - intros Hn Hp. unfold New. destruct (Z.eqb_spec n 0); [lia |]. now rewrite Hp.
  - intros Hn Hp Hmem.
    rewrite New_checked by (lia || now apply float_pos_not_le).
    destruct (Z.ltb_spec maxAlloc (8 * ((optimalBitLen n prob + 63) / 64)));
      [lia | eauto].
  - intros Hn Hp Hmem.
    rewrite New_checked by (lia || now apply float_pos_not_le).
    destruct (Z.ltb_spec maxAlloc (8 * ((optimalBitLen n prob + 63) / 64)));
      [reflexivity | lia].
Qed.

Lemma New_validation_witness :
  New 0 prob_0_01 = Err ErrZeroElements /\
  New 1 0 = Err ErrProbability /\
  (exists bf, New 100 prob_0_01 = Ok bf) /\
  New 1 2 = Panic MakeSliceLenOutOfRange.
Proof.
  split; [| split; [| split]].
  - apply (proj1 (New_validation 0 prob_0_01)). reflexivity.
  - apply (proj1 (proj2 (New_validation 1 0))); [lia | vm_compute; reflexivity].
  - apply (proj1 (proj2 (proj2 (New_validation 100 prob_0_01))));
      [lia | vm_compute; reflexivity | apply Z.leb_le; vm_compute; reflexivity].
  - apply (proj2 (proj2 (proj2 (New_validation 1 2))));
      [lia | vm_compute; reflexivity | apply Z.ltb_lt; vm_compute; reflexivity].
Defined.

(** TestNew_error *)
Example TestNew_error :
  New 0 0x1.999999999999ap-4 = Err ErrZeroElements /\
  New 1 0 = Err ErrProbability /\
  New 1 (-0x1.999999999999ap-4) = Err ErrProbability.
Proof. repeat split; vm_compute; reflexivity. Qed.

(** C10: for every filter [New] returns and every element, the buckets are
    as many as the bit length rounded up to whole buckets, every position
    [bitpositions] derives has its bucket among them, and neither [Add] nor
    [Has] ends in an index out of range; they return without an error
    unless the bit length is zero. *)
Theorem New_in_bounds n prob bf element :
  New n prob = Ok bf ->
  Z.of_nat (length (bitstore bf)) = (bitlen bf + 63) / 64 /\
  (forall pos err,
     bitpositions element (hashqty bf) (bitlen bf) = Ok (pos, err) ->
     Forall (fun p => 0 <= fst (bitlocation p 64) < Z.of_nat (length (bitstore bf))) pos) /\
  fst (Add element bf) <> Panic IndexOutOfRange /\
  fst (Has element bf) <> Panic IndexOutOfRange /\
  (bitlen bf <> 0 ->
   fst (Add element bf) = Ok tt /\ exists b, fst (Has element bf) = Ok b).
Proof.
  intros HNew. destruct (New_wf n prob bf HNew) as [Hwf Hs].
  split; [| now apply sized_in_bounds].
  destruct Hwf as [Hm _]. apply New_Ok in HNew as (_ & _ & ->). cbn in *.
  rewrite repeat_length. unfold Int.is_uint64 in Hm.
  Z.to_euclidean_division_equations. lia.
Qed.

(** ** Floats: conversions and the ceiling *)

(** Shifting a mantissa to the left adds binary digits and multiplies. *)
Lemma digits2_pos_iter_xO m k :
  digits2_pos (Pos.iter xO m k) = (digits2_pos m + k)%positive.
Proof.
  induction k as [| k IH] using Pos.peano_ind.
  - cbn. now rewrite Pos.add_1_r.
  - rewrite Pos.iter_succ. cbn [digits2_pos]. rewrite IH. now rewrite Pos.add_succ_r.
Qed.

Lemma Zpos_iter_xO m k : Z.pos (Pos.iter xO m k) = Z.pos m * 2 ^ Z.pos k.
Proof.
  induction k as [| k IH] using Pos.peano_ind.
  - cbn. lia.
  - rewrite Pos.iter_succ, Pos2Z.inj_succ, Z.pow_succ_r by lia.
    set (P := 2 ^ Z.pos k) in *. clearbody P. lia.
Qed.

Lemma digits2_pos_bound m :
  2 ^ (Z.pos (digits2_pos m) - 1) <= Z.pos m < 2 ^ Z.pos (digits2_pos m).
Proof.
  induction m as [m IH | m IH |]; cbn [digits2_pos].
  - rewrite Pos2Z.inj_succ.
    replace (Z.succ (Z.pos (digits2_pos m)) - 1) with (Z.succ (Z.pos (digits2_pos m) - 1)) by lia.
    rewrite !Z.pow_succ_r by lia.
    set (a := 2 ^ (Z.pos (digits2_pos m) - 1)) in *. set (b := 2 ^ Z.pos (digits2_pos m)) in *.
    clearbody a b. lia.
  - rewrite Pos2Z.inj_succ.
    replace (Z.succ (Z.pos (digits2_pos m)) - 1) with (Z.succ (Z.pos (digits2_pos m) - 1)) by lia.
    rewrite !Z.pow_succ_r by lia.
    set (a := 2 ^ (Z.pos (digits2_pos m) - 1)) in *. set (b := 2 ^ Z.pos (digits2_pos m)) in *.
    clearbody a b. lia.
  - cbn. lia.
Qed.

Lemma digits2_pos_le m k : Z.pos m < 2 ^ k -> Z.pos (digits2_pos m) <= k.
Proof.
  intros H. pose proof (digits2_pos_bound m) as [Hlo _].
  destruct (Z.le_gt_cases (Z.pos (digits2_pos m)) k) as [Hle | Hgt]; [exact Hle |].
  assert (2 ^ k <= 2 ^ (Z.pos (digits2_pos m) - 1)) by (apply Z.pow_le_mono_r; lia).
  lia.
Qed.

Lemma binary_normalize_int m :
  Z.pos (digits2_pos m) <= 53 ->
  SFtrunc (binary_normalize prec emax (Z.pos m) 0 false) = Some (Z.pos m).
Proof.
  intros Hd. unfold binary_normalize, binary_round.
  assert (Hd1 : 1 <= Z.pos (digits2_pos m)) by lia.
  remember (Z.pos (digits2_pos m)) as d eqn:Hdd.
  assert (Hf : fexp prec emax (d + 0) = d - 53).
  { unfold fexp, SpecFloat.emin, emax, prec. rewrite Z.max_l; lia. }
  rewrite Hf. unfold shl_align.
  destruct (d - 53 - 0) as [| k | k] eqn:Hk; try lia.
  - unfold binary_round_aux, shr_fexp. cbn [Zdigits2 shr_record_of_loc].
    rewrite <- Hdd. replace (d + 0) with d by lia.
    assert (Hf0 : fexp prec emax d - 0 = 0) by (unfold fexp, SpecFloat.emin, emax, prec; rewrite Z.max_l; lia).
    rewrite Hf0. cbn [shr shr_m loc_of_shr_record round_nearest_even Zdigits2 shr_record_of_loc].
    rewrite <- Hdd. replace (d + 0) with d by lia. rewrite Hf0. cbn [shr shr_m].
    change (0 <=? emax - prec) with true. cbn iota. unfold SFtrunc.
    change (0 <=? 0) with true. cbn iota. f_equal. lia.
  - unfold binary_round_aux, shr_fexp. cbn [Zdigits2 shr_record_of_loc].
    rewrite digits2_pos_iter_xO. rewrite Pos2Z.inj_add. rewrite <- Hdd.
    assert (Hf0 : fexp prec emax (d + Z.pos k + (d - 53)) - (d - 53) = 0)
      by (unfold fexp, SpecFloat.emin, emax, prec; rewrite Z.max_l; lia).
    rewrite Hf0. cbn [shr shr_m loc_of_shr_record round_nearest_even Zdigits2 shr_record_of_loc].
    rewrite digits2_pos_iter_xO. rewrite Pos2Z.inj_add. rewrite <- Hdd. rewrite Hf0. cbn [shr shr_m].
    destruct (Z.leb_spec (d - 53) (emax - prec)) as [_ | H]; [| unfold emax, prec in H; lia].
    unfold SFtrunc. destruct (Z.leb_spec 0 (d - 53)); [lia |].
    rewrite Zpos_iter_xO. replace (- (d - 53)) with (Z.pos k) by lia.
    rewrite Z.div_mul; [reflexivity |]. apply Z.pow_nonzero; lia.
Qed.

Lemma SFtrunc_opp y : SFtrunc (SFopp y) = option_map Z.opp (SFtrunc y).
Proof.
  destruct y as [s | s | | s m e]; cbn; try reflexivity.
  destruct s; cbn; f_equal; lia.
Qed.

(** [float64(z)] is exact for an integer of at most 53 bits. *)
Lemma float64_of_int_trunc z :
  - 2 ^ 53 < z < 2 ^ 53 -> float_trunc (math.float64_of_int z) = Some z.
Proof.
  intros Hz. unfold float_trunc, math.float64_of_int.
  assert (Hpos : forall q, 0 <= q < 2 ^ 53 ->
            SFtrunc (Prim2SF (of_uint63 (Uint63.of_Z q))) = Some q).
  { intros q Hq. rewrite of_uint63_spec, Uint63.of_Z_spec.
    rewrite Z.mod_small by (change Uint63.wB with (2 ^ 63); lia).
    destruct q as [| m | m]; [reflexivity | | lia].
    apply binary_normalize_int. apply digits2_pos_le. lia. }
  destruct (Z.ltb_spec z 0).
  - rewrite opp_spec, SFtrunc_opp, Hpos by lia. cbn. f_equal. lia.
  - apply Hpos. lia.
Qed.

Lemma Zceil_div_pos m d :
  0 < d -> Zceil_div m d = if m mod d =? 0 then m / d else m / d + 1.
Proof.
  intros Hd. unfold Zceil_div. destruct (Z.eqb_spec (m mod d) 0) as [H0 | H0].
  - rewrite Z.div_opp_l_z by lia. lia.
  - rewrite Z.div_opp_l_nz by lia. lia.
Qed.

(** A valid finite float has a mantissa of at most 53 bits. *)
Lemma valid_mantissa s m e :
  valid_binary (S754_finite s m e) = true -> Z.pos m < 2 ^ 53.
Proof.
  cbn. unfold bounded, canonical_mantissa, fexp, SpecFloat.emin, emax, prec.
  intros [Hc _]%andb_prop. apply Z.eqb_eq in Hc.
  pose proof (digits2_pos_bound m) as [_ Hhi].
  assert (Z.pos (digits2_pos m) <= 53) by lia.
  assert (2 ^ Z.pos (digits2_pos m) <= 2 ^ 53) by (apply Z.pow_le_mono_r; lia).
  lia.
Qed.

(** [math.Ceil] is the ceiling. *)
Lemma Ceil_trunc x : float_trunc (math.Ceil x) = float_ceiling x.
Proof.
  unfold math.Ceil, float_ceiling. pose proof (Prim2SF_valid x) as Hv.
  destruct (Prim2SF x) as [s | s | | s m e] eqn:Hx; unfold float_trunc.
  1-3: rewrite Hx; reflexivity.
  pose proof (valid_mantissa s m e Hv) as Hm.
  cbn [SFceiling]. destruct (Z.leb_spec 0 e) as [He | He].
  - rewrite Hx. cbn [SFtrunc]. destruct (Z.leb_spec 0 e); [| lia].
    destruct s; f_equal; lia.
  - assert (Hd : 2 <= 2 ^ (- e)).
    { change 2 with (2 ^ 1) at 1. apply Z.pow_le_mono_r; lia. }
    set (d := 2 ^ (- e)) in *.
    pose proof (Z.div_mod (Z.pos m) d ltac:(lia)) as Hdm.
    pose proof (Z.mod_pos_bound (Z.pos m) d ltac:(lia)) as Hr.
    assert (Hq : 0 <= Z.pos m / d) by (apply Z.div_pos; lia).
    set (q := Z.pos m / d) in *. set (r := Z.pos m mod d) in *.
    assert (Hqm : 2 * q <= Z.pos m) by (clearbody q r d; nia).
    destruct s.
    + unfold Zceil_div. change (- Z.neg m) with (Z.pos m).
      fold q. destruct (Z.eqb_spec q 0) as [-> | Hq0].
      * reflexivity.
      * apply float64_of_int_trunc. clearbody q r d. lia.
    + rewrite Zceil_div_pos by lia. fold q r.
      apply float64_of_int_trunc. clearbody q r d.
      destruct (r =? 0); lia.
Qed.

Lemma optimalBitLen_ceiling n prob c :
  float_ceiling (optLen n prob) = Some c -> optimalBitLen n prob = Int.to_uint64 c.
Proof.
  intros H. unfold optimalBitLen, uint64_of_float. now rewrite Ceil_trunc, H.
Qed.

Lemma optimalHashQty_ceiling prob c :
  float_ceiling (optQty prob) = Some c -> optimalHashQty prob = Int.to_byte c.
Proof.
  intros H. unfold optimalHashQty, byte_of_float. now rewrite Ceil_trunc, H.
Qed.

(** The ceiling of a float between 0 and 2^64, both excluded, is an integer
    between 1 and 2^64 - 1. *)
Lemma float_ceiling_pos x :
  (0 <? x)%float = true -> (x <? two_64)%float = true ->
  exists c, float_ceiling x = Some c /\ 1 <= c < 2 ^ 64.
Proof.
  rewrite !ltb_spec. unfold float_ceiling. pose proof (Prim2SF_valid x) as Hv.
  change (Prim2SF 0) with (S754_zero false).
  change (Prim2SF two_64) with (S754_finite false 4503599627370496 12).
  destruct (Prim2SF x) as [s | s | | s m e]; unfold SFltb; cbn [SFcompare];
    try destruct s; try discriminate.
  intros _ Hlt. pose proof (valid_mantissa false m e Hv) as Hm.
  cbn [SFceiling]. eexists. split; [reflexivity |].
  destruct (Z.leb_spec 0 e) as [He | He].
  - assert (Hp : 1 <= 2 ^ e) by (apply Z.lt_pred_le, Z.pow_pos_nonneg; lia).
    destruct (Z.compare_spec e 12) as [-> | He12 | He12]; try discriminate.
    + rewrite Pos.compare_cont_spec in Hlt. cbn [Pos.switch_Eq] in Hlt.
      destruct (Pos.compare_spec m 4503599627370496) as [| Hc |]; try discriminate.
      assert (Hc' : Z.pos m < 2 ^ 52) by exact Hc.
      clear - Hc'. change (2 ^ 12) with 4096. change (2 ^ 52) with 4503599627370496 in Hc'.
      change (2 ^ 64) with 18446744073709551616. lia.
    + assert (2 ^ e <= 2 ^ 11) by (apply Z.pow_le_mono_r; lia).
      set (P := 2 ^ e) in *. clearbody P. nia.
  - assert (Hd : 1 <= 2 ^ (- e)) by (apply Z.lt_pred_le, Z.pow_pos_nonneg; lia).
    rewrite Zceil_div_pos by lia.
    set (d := 2 ^ (- e)) in *.
    pose proof (Z.div_mod (Z.pos m) d ltac:(lia)) as Hdm.
    pose proof (Z.mod_pos_bound (Z.pos m) d ltac:(lia)) as Hr.
    assert (Hq : 0 <= Z.pos m / d) by (apply Z.div_pos; lia).
    set (q := Z.pos m / d) in *. set (r := Z.pos m mod d) in *.
    clearbody q r d.
    destruct (Z.eqb_spec r 0); nia.
Qed.

(** ** Capacity planning *)

(** TestOptimalBitLen *)
Example TestOptimalBitLen :
  optimalBitLen 1000000 prob_0_01 = 9585059 /\
  optimalBitLen 0 prob_0_01 = 0 /\
  optimalBitLen 2147483647 prob_0_01 = 20583756121 /\
  optimalBitLen 4294967295 prob_0_01 = 41167512252.
Proof. repeat split; vm_compute; reflexivity. Qed.

(** TestOptimalHashQty: 0.1, 0.01, 0.0123, 0.001 and 0.0001001231231. *)
Example TestOptimalHashQty :
  optimalHashQty 0x1.999999999999ap-4 = 4 /\
  optimalHashQty prob_0_01 = 7 /\
  optimalHashQty 0x1.930be0ded288dp-7 = 7 /\
  optimalHashQty 0x1.0624dd2f1a9fcp-10 = 10 /\
  optimalHashQty 0x1.a3f26283b1524p-14 = 14.
Proof. repeat split; vm_compute; reflexivity. Qed.

(** TestNew: the cases n=1, n=6 and n=7, and the sizes of n=max. *)
Example TestNew :
  New 1 prob_0_01 =
    Ok {| prob := prob_0_01; bitlen := 10; hashqty := 7; n := 1; bitstore := [0] |} /\
  New 6 prob_0_01 =
    Ok {| prob := prob_0_01; bitlen := 58; hashqty := 7; n := 6; bitstore := [0] |} /\
  New 7 prob_0_01 =
    Ok {| prob := prob_0_01; bitlen := 68; hashqty := 7; n := 7; bitstore := [0; 0] |} /\
  (41167512252 + 63) / 64 = 643242379 /\
  optimalBitLen 4294967295 0x1.0624dd2f1a9fcp-10 = 61751268378 /\
  (61751268378 + 63) / 64 = 964863569.
Proof. repeat split; vm_compute; reflexivity. Qed.

(** C7, as stated, fails: for the probability 1e-100 the ceiling of
    [-ln(p) / ln(2)] is 333, which no byte is. *)
Lemma optimalHashQty_wraps :
  (0 <? prob_1e_100)%float = true /\
  float_ceiling (optQty prob_1e_100) = Some 333 /\
  optimalHashQty prob_1e_100 <> 333.
Proof. repeat split; vm_compute; congruence. Qed.

(** C7 (amended): with [-n * ln(p) / (ln(2) * ln(2))] and [-ln(p) / ln(2)]
    computed in float64, [optimalBitLen n p] is the ceiling of the first
    whenever that ceiling is in the uint64 range, and [optimalHashQty p] is
    the ceiling of the second whenever that ceiling is in the byte range; in
    particular [optimalBitLen 1000000 0.01 = 9585059],
    [optimalHashQty 0.01 = 7] and [optimalBitLen 0 0.01 = 0]. *)
Theorem sizing_spec n prob :
  (forall c, float_ceiling (optLen n prob) = Some c -> 0 <= c < 2 ^ 64 ->
             optimalBitLen n prob = c) /\
  (forall c, float_ceiling (optQty prob) = Some c -> 0 <= c < 2 ^ 8 ->
             optimalHashQty prob = c) /\
  optimalBitLen 1000000 prob_0_01 = 9585059 /\
  optimalHashQty prob_0_01 = 7 /\
  optimalBitLen 0 prob_0_01 = 0.
Proof.
  split; [| split; [| repeat split; vm_compute; reflexivity]].
  - intros c Hc Hr. rewrite (optimalBitLen_ceiling n prob c Hc).
    now apply to_uint64_id.
  - intros c Hc Hr. rewrite (optimalHashQty_ceiling prob c Hc).
    now apply to_byte_id.
Qed.

Lemma sizing_spec_witness :
  optimalBitLen 2147483647 prob_0_01 = 20583756121 /\
  optimalHashQty prob_0_01 = 7.
Proof.
  split.
  - apply (proj1 (sizing_spec 2147483647 prob_0_01) 20583756121).
    + vm_compute. reflexivity.
    + lia.
  - apply (proj1 (proj2 (sizing_spec 2147483647 prob_0_01)) 7).
    + vm_compute. reflexivity.
    + lia.
Defined.

(** C9, as stated, fails: [New] accepts the probability 1, for which the
    optimal length is zero. *)
Lemma New_bitlen_zero :
  (0 <? 1)%float = true /\
  New 1 1 = Ok {| prob := 1; bitlen := 0; hashqty := 0; n := 1; bitstore := [] |}.
Proof. split; vm_compute; reflexivity. Qed.

(** C9 (amended): for every filter [New] returns, the bit length is
    strictly greater than 0 whenever the float64 [optLen], that is
    [-n * ln(p) / (ln(2) * ln(2))], is greater than 0 and less than 2^64;
    it is then the ceiling of [optLen]. *)
Theorem New_bitlen_positive n prob bf :
  New n prob = Ok bf ->
  (0 <? optLen n prob)%float = true ->
  (optLen n prob <? two_64)%float = true ->
  0 < bitlen bf /\ float_ceiling (optLen n prob) = Some (bitlen bf).
Proof.
  intros (_ & _ & ->)%New_Ok Hpos Hlt. cbn [bitlen].
  destruct (float_ceiling_pos _ Hpos Hlt) as (c & Hc & Hr).
  rewrite (optimalBitLen_ceiling n prob c Hc).
  rewrite to_uint64_id by (unfold Int.is_uint64; lia).
  split; [lia | exact Hc].
Qed.

Lemma New_bitlen_positive_witness :
  0 < bitlen {| prob := prob_0_01; bitlen := 10; hashqty := 7; n := 1; bitstore := [0] |} /\
  float_ceiling (optLen 1 prob_0_01) = Some 10.
Proof.
  apply (New_bitlen_positive 1 prob_0_01
           {| prob := prob_0_01; bitlen := 10; hashqty := 7; n := 1; bitstore := [0] |});
    vm_compute; reflexivity.
Defined.

Lemma New_in_bounds_witness :
  exists bf,
    New 100 prob_0_01 = Ok bf /\ bitlen bf = 959 /\ hashqty bf = 7 /\
    Z.of_nat (length (bitstore bf)) = (bitlen bf + 63) / 64 /\
    (forall pos err,
       bitpositions (list_byte_of_string "bob@example.com") (hashqty bf) (bitlen bf)
         = Ok (pos, err) ->
       Forall (fun p => 0 <= fst (bitlocation p 64) < Z.of_nat (length (bitstore bf))) pos) /\
    fst (Add (list_byte_of_string "bob@example.com") bf) <> Panic IndexOutOfRange /\
    fst (Has (list_byte_of_string "bob@example.com") bf) <> Panic IndexOutOfRange /\
    (bitlen bf <> 0 ->
     fst (Add (list_byte_of_string "bob@example.com") bf) = Ok tt /\
     exists b, fst (Has (list_byte_of_string "bob@example.com") bf) = Ok b).
Proof.
  eexists. split; [vm_compute; reflexivity |].
  split; [reflexivity |]. split; [reflexivity |].
  apply (New_in_bounds 100 prob_0_01). vm_compute. reflexivity.
Defined.

(** * Further properties: the bit array, the answers of [Has], fuzz.go *)

Lemma bit_of_bit_at bf p : bit_of bf p = bit_at (bitstore bf) p.
Proof. reflexivity. Qed.

Lemma lor_pow2_testbit w k j :
  0 <= k -> 0 <= j -> Z.testbit (Z.lor w (2 ^ k)) j = Z.testbit w j || (j =? k).
Proof.
  intros Hk Hj. rewrite Z.lor_spec, Z.pow2_bits_eqb by lia.
  f_equal. apply Z.eqb_sym.
Qed.

(** Setting the bit at [p] changes the bit at [p], and no other. *)
Lemma bit_at_set_bit s p q :
  bit_at (set_bit s p) q = option_map (fun b => b || (q =? p)) (bit_at s q).
Proof.
  unfold set_bit, bit_at.
  destruct (word_at s (p / 64)) as [w|] eqn:Hp.
  - apply word_at_Some in Hp as [Hp0 Hp].
    destruct (Z.eq_dec (q / 64) (p / 64)) as [E|E].
    + rewrite E. 
      assert (Hw : word_at (<[Z.to_nat (p / 64) := Z.lor w (2 ^ (p mod 64))]> s) (p / 64)
                   = Some (Z.lor w (2 ^ (p mod 64)))).
      { apply word_at_Some. split; [lia|].
        apply list_lookup_insert_eq. eapply lookup_lt_Some; eauto. }
      rewrite Hw.
      assert (Hw' : word_at s (p / 64) = Some w) by (apply word_at_Some; auto).
      rewrite Hw'. cbn [option_map]. f_equal.
      pose proof (Z.mod_pos_bound p 64 ltac:(lia)).
      pose proof (Z.mod_pos_bound q 64 ltac:(lia)).
      rewrite lor_pow2_testbit by lia. f_equal.
      pose proof (Z.div_mod p 64 ltac:(lia)). pose proof (Z.div_mod q 64 ltac:(lia)).
      destruct (Z.eqb_spec (q mod 64) (p mod 64)), (Z.eqb_spec q p); try reflexivity; try lia; subst; lia.
    + assert (Hne : q <> p) by (intros ->; auto).
      apply Z.eqb_neq in Hne. rewrite Hne.
      assert (Hw : word_at (<[Z.to_nat (p / 64) := Z.lor w (2 ^ (p mod 64))]> s) (q / 64)
                   = word_at s (q / 64)).
      { unfold word_at. destruct (q / 64 <? 0) eqn:Hq; [reflexivity|].
        apply Z.ltb_ge in Hq. apply list_lookup_insert_ne. lia. }
      rewrite Hw. destruct (word_at s (q / 64)); cbn [option_map]; [|reflexivity].
      now rewrite orb_false_r.
  - destruct (word_at s (q / 64)) as [w|] eqn:Hq; cbn [option_map]; [|reflexivity].
    f_equal. destruct (Z.eqb_spec q p) as [->|]; [congruence|]. now rewrite orb_false_r.
Qed.

Lemma bit_at_set_bits ps : forall s q,
  bit_at (set_bits s ps) q =
    option_map (fun b => b || existsb (Z.eqb q) ps) (bit_at s q).
Proof.
  induction ps as [|p ps IH]; intros s q; cbn [set_bits fold_left existsb].
  - destruct (bit_at s q); cbn [option_map]; [|reflexivity]. now rewrite orb_false_r.
  - change (fold_left set_bit ps (set_bit s p)) with (set_bits (set_bit s p) ps).
    rewrite IH, bit_at_set_bit.
    destruct (bit_at s q); cbn [option_map]; [|reflexivity].
    now rewrite orb_assoc.
Qed.

Lemma set_bit_length s p : length (set_bit s p) = length s.
Proof.
  unfold set_bit. destruct (word_at s (p / 64)); [apply length_insert|reflexivity].
Qed.

Lemma set_bits_length ps : forall s, length (set_bits s ps) = length s.
Proof.
  induction ps as [|p ps IH]; intros s; [reflexivity|].
  cbn [set_bits fold_left].
  change (fold_left set_bit ps (set_bit s p)) with (set_bits (set_bit s p) ps).
  now rewrite IH, set_bit_length.
Qed.

Lemma set_bits_app ps qs s : set_bits s (ps ++ qs) = set_bits (set_bits s ps) qs.
Proof. apply fold_left_app. Qed.

Lemma set_bitstore_id bf : set_bitstore (bitstore bf) bf = bf.
Proof. now destruct bf. Qed.

(** A loop of [Add] that meets no panic sets the bits of its positions. *)
Lemma Add_loop_set_bits pos : forall bf,
  Forall Int.is_uint64 pos ->
  fst (Add_loop pos bf) = Ok tt ->
  snd (Add_loop pos bf) = set_bitstore (set_bits (bitstore bf) pos) bf.
Proof.
  induction pos as [|p pos IH]; intros bf Hpos Hok.
  - cbn. now rewrite set_bitstore_id.
  - inversion Hpos as [|? ? Hp Hrest]; subst.
    rewrite Add_loop_cons_bit in Hok by assumption.
    rewrite Add_loop_cons_bit by assumption.
    cbn [set_bits fold_left]. unfold set_bit at 2.
    destruct (word_at (bitstore bf) (p / 64)) as [w|] eqn:Hw.
    + rewrite (IH _ Hrest Hok). reflexivity.
    + discriminate Hok.
Qed.

Lemma Filter_le_wf bf bf' : Filter_le bf bf' -> Filter_wf bf -> Filter_wf bf'.
Proof.
  intros (_ & Hm & Hk & _ & _) [H1 H2]. unfold Filter_wf. now rewrite <- Hm, <- Hk.
Qed.

Lemma Filter_le_sized bf bf' : Filter_le bf bf' -> Filter_sized bf -> Filter_sized bf'.
Proof.
  intros (_ & Hm & _ & _ & Hs) H. unfold Filter_sized in *.
  now rewrite <- Hm, <- (bits_le_length _ _ Hs).
Qed.

Lemma derived_positions_uint64 e k m :
  Int.is_uint64 m -> m <> 0 -> Forall Int.is_uint64 (derived_positions e k m).
Proof.
  intros Hm H0. unfold Int.is_uint64 in *.
  eapply Forall_impl; [apply derived_positions_range; lia|].
  cbn beta. intros p Hp. lia.
Qed.

(** [Add] on a filter whose buckets hold all its bits. *)
Lemma Add_set_bits e bf :
  Filter_wf bf -> Filter_sized bf -> bitlen bf <> 0 ->
  Add e bf =
    (Ok tt,
     set_bitstore
       (set_bits (bitstore bf) (derived_positions e (hashqty bf) (bitlen bf))) bf).
Proof.
  intros [Hm Hk] Hs H0. unfold Add.
  rewrite (bitpositions_eq e _ _ Hk H0).
  assert (Hok : fst (Add_loop (derived_positions e (hashqty bf) (bitlen bf)) bf) = Ok tt).
  { apply Add_loop_in_range; [assumption..|].
    apply derived_positions_range. unfold Int.is_uint64 in Hm. lia. }
  rewrite (surjective_pairing (Add_loop _ bf)), Hok.
  f_equal. apply Add_loop_set_bits; [|assumption].
  now apply derived_positions_uint64.
Qed.

Lemma Add_all_cons e es bf : Add_all (e :: es) bf = Add_all es (snd (Add e bf)).
Proof. reflexivity. Qed.

(** A run of adds sets the bits of the positions of all its elements. *)
Lemma Add_all_set_bits es : forall bf,
  Filter_wf bf -> Filter_sized bf -> bitlen bf <> 0 ->
  Add_all es bf =
    set_bitstore
      (set_bits (bitstore bf) (positions_of es (hashqty bf) (bitlen bf))) bf.
Proof.
  induction es as [|e es IH]; intros bf Hwf Hs H0.
  - unfold Add_all, positions_of. cbn [fold_left flat_map set_bits].
    now rewrite set_bitstore_id.
  - rewrite Add_all_cons, (Add_set_bits e bf Hwf Hs H0). cbn [snd].
    rewrite IH.
    + unfold positions_of. cbn [flat_map]. rewrite set_bits_app. reflexivity.
    + exact Hwf.
    + unfold Filter_sized in *. cbn [bitlen bitstore set_bitstore].
      now rewrite set_bits_length.
    + exact H0.
Qed.

Lemma lookup_repeat {A} (x : A) (k : nat) : forall i : nat,
  (i < k)%nat -> repeat x k !! i = Some x.
Proof.
  induction k as [|k IH]; intros i Hi; [lia|].
  destruct i as [|i]; [reflexivity|]. cbn. apply IH. lia.
Qed.

Lemma bit_at_zeros k q :
  0 <= q / 64 < Z.of_nat k -> bit_at (repeat 0 k) q = Some false.
Proof.
  intros Hq. unfold bit_at.
  assert (Hw : word_at (repeat 0 k) (q / 64) = Some 0).
  { apply word_at_Some. split; [lia|]. apply lookup_repeat. lia. }
  rewrite Hw. now rewrite Z.bits_0.
Qed.

Lemma bit_at_in_range s q m :
  0 <= q < m -> m <= 64 * Z.of_nat (length s) -> exists b, bit_at s q = Some b.
Proof.
  intros Hq Hm. unfold bit_at.
  destruct (word_at_in_range s (q / 64)) as [w Hw].
  - eapply position_bucket; eauto.
  - rewrite Hw. eauto.
Qed.

Lemma existsb_eqb_In q ps : existsb (Z.eqb q) ps = true <-> In q ps.
Proof.
  rewrite existsb_exists. split.
  - intros (x & Hx & ->%Z.eqb_eq). exact Hx.
  - intros H. exists q. split; [exact H|apply Z.eqb_refl].
Qed.

Lemma In_positions_of p es k m :
  In p (positions_of es k m) <->
  exists e, In e es /\ In p (derived_positions e k m).
Proof. unfold positions_of. apply in_flat_map. Qed.

Lemma Has_positions e bf :
  Filter_wf bf -> bitlen bf <> 0 ->
  Has e bf = Has_loop (derived_positions e (hashqty bf) (bitlen bf)) bf.
Proof.
  intros [Hm Hk] H0. unfold Has. now rewrite (bitpositions_eq e _ _ Hk H0).
Qed.

(** More bits set never turn a positive answer of [Has] into another. *)
Lemma Has_true_le e bf bf' :
  Filter_wf bf -> Filter_le bf bf' ->
  fst (Has e bf) = Ok true -> fst (Has e bf') = Ok true.
Proof.
  intros Hwf Hle. pose proof Hle as (_ & Hm & Hk & _ & _).
  unfold Has. rewrite <- Hm, <- Hk.
  destruct (bitpositions e (hashqty bf) (bitlen bf)) as [[pos [err|]]|err|q] eqn:E;
    cbn [fst]; try discriminate.
  pose proof (bitpositions_uint64 _ _ _ _ Hwf E) as Hpos.
  rewrite !Has_loop_true by assumption.
  intros H. eapply Forall_impl; [exact H|].
  cbn beta. intros p Hp. eapply bit_of_le; eauto.
Qed.

Lemma testbit_lor_pow2 w k : 0 <= k -> Z.testbit w k = true -> Z.lor w (2 ^ k) = w.
Proof.
  intros Hk Hb. apply Z.bits_inj'. intros j Hj.
  rewrite lor_pow2_testbit by lia.
  destruct (Z.eqb_spec j k) as [->|]; [now rewrite Hb|apply orb_false_r].
Qed.

(** The loop of [Add] over bits that are set changes nothing. *)
Lemma Add_loop_present pos : forall bf,
  Forall Int.is_uint64 pos ->
  Forall (fun p => bit_of bf p = Some true) pos ->
  Add_loop pos bf = (Ok tt, bf).
Proof.
  induction pos as [|p pos IH]; intros bf Hpos Hset; [reflexivity|].
  inversion Hpos as [|? ? Hp Hrest]; subst.
  inversion Hset as [|? ? Hb Hbs]; subst.
  rewrite Add_loop_cons_bit by assumption.
  unfold bit_of in Hb.
  destruct (word_at (bitstore bf) (p / 64)) as [w|] eqn:Hw; [|discriminate].
  injection Hb as Hb.
  pose proof (Z.mod_pos_bound p 64 ltac:(lia)).
  rewrite (testbit_lor_pow2 w (p mod 64)) by (lia || assumption).
  apply word_at_Some in Hw as [_ Hw].
  rewrite (list_insert_id _ _ _ Hw), set_bitstore_id.
  now apply IH.
Qed.

Lemma Has_loop_result pos bf :
  Int.is_uint64 (bitlen bf) -> Filter_sized bf ->
  Forall (fun p => 0 <= p < bitlen bf) pos ->
  exists b, Has_loop pos bf = (Ok b, bf).
Proof.
  intros Hm Hs Hpos. destruct (Has_loop_in_range pos bf Hm Hs Hpos) as [b Hb].
  exists b. rewrite (surjective_pairing (Has_loop pos bf)), Hb, Has_loop_readonly.
  reflexivity.
Qed.

Lemma bits_after_adds bf es p :
  Filter_wf bf -> Filter_sized bf -> bitlen bf <> 0 ->
  0 <= p < bitlen bf ->
  exists b, bit_of bf p = Some b /\
    bit_of (Add_all es bf) p =
      Some (b || existsb (Z.eqb p) (positions_of es (hashqty bf) (bitlen bf))).
Proof.
  intros Hwf Hs H0 Hp.
  destruct (bit_at_in_range (bitstore bf) p (bitlen bf) Hp Hs) as [b Hb].
  exists b. split; [exact Hb|].
  rewrite (Add_all_set_bits es bf Hwf Hs H0), bit_of_bit_at.
  cbn [bitstore set_bitstore]. rewrite bit_at_set_bits, Hb. reflexivity.
Qed.

Lemma Add_all_wf es bf : Filter_wf bf -> Filter_wf (Add_all es bf).
Proof. apply Filter_le_wf, Add_all_le. Qed.

Lemma Add_all_sized es bf : Filter_sized bf -> Filter_sized (Add_all es bf).
Proof. apply Filter_le_sized, Add_all_le. Qed.

Lemma Add_all_fields es bf :
  bitlen (Add_all es bf) = bitlen bf /\ hashqty (Add_all es bf) = hashqty bf.
Proof. destruct (Add_all_le es bf) as (_ & Hm & Hk & _). now split. Qed.

(** Two bits can be set in either order. *)
Lemma set_bit_comm s p q : set_bit (set_bit s p) q = set_bit (set_bit s q) p.
Proof.
  unfold set_bit.
  destruct (word_at s (p / 64)) as [wp|] eqn:Hp, (word_at s (q / 64)) as [wq|] eqn:Hq.
  - apply word_at_Some in Hp as [Hp0 Hp]. apply word_at_Some in Hq as [Hq0 Hq].
    destruct (Z.eq_dec (p / 64) (q / 64)) as [E|E].
    + rewrite E in *. assert (wp = wq) by congruence. subst wq.
      assert (Hl : (Z.to_nat (q / 64) < length s)%nat) by (eapply lookup_lt_Some; eauto).
      assert (Hw : forall m, word_at (<[Z.to_nat (q / 64) := m]> s) (q / 64) = Some m).
      { intros m. apply word_at_Some. split; [lia|]. now apply list_lookup_insert_eq. }
      rewrite !Hw, !list_insert_insert_eq. f_equal.
      rewrite <- !Z.lor_assoc. f_equal. apply Z.lor_comm.
    + assert (Hn : Z.to_nat (p / 64) <> Z.to_nat (q / 64)) by lia.
      assert (Hw1 : word_at (<[Z.to_nat (p / 64) := Z.lor wp (2 ^ (p mod 64))]> s) (q / 64)
                    = Some wq).
      { apply word_at_Some. split; [lia|]. rewrite list_lookup_insert_ne; auto. }
      assert (Hw2 : word_at (<[Z.to_nat (q / 64) := Z.lor wq (2 ^ (q mod 64))]> s) (p / 64)
                    = Some wp).
      { apply word_at_Some. split; [lia|]. rewrite list_lookup_insert_ne; auto. }
      rewrite Hw1, Hw2. apply list_insert_insert_ne. auto.
  - rewrite Hp.
    rewrite (word_at_length s (<[Z.to_nat (p / 64) := Z.lor wp (2 ^ (p mod 64))]> s)
               (q / 64));
      [reflexivity| now rewrite length_insert | assumption].
  - rewrite (word_at_length s (<[Z.to_nat (q / 64) := Z.lor wq (2 ^ (q mod 64))]> s)
               (p / 64));
      [reflexivity| now rewrite length_insert | assumption].
  - now rewrite Hp.
Qed.

Lemma set_bits_cons p ps s : set_bits s (p :: ps) = set_bits (set_bit s p) ps.
Proof. reflexivity. Qed.

Lemma set_bits_perm ps qs :
  Permutation ps qs -> forall s, set_bits s ps = set_bits s qs.
Proof.
  induction 1 as [|p ps qs _ IH|p q ps|ps qs rs _ IH1 _ IH2]; intros s.
  - reflexivity.
  - rewrite !set_bits_cons. apply IH.
  - rewrite !set_bits_cons. now rewrite set_bit_comm.
  - now rewrite IH1.
Qed.

Lemma Add_bitlen_zero e bf : bitlen bf = 0 -> snd (Add e bf) = bf.
Proof.
  intros H0. unfold Add. rewrite H0, bitpositions_zero.
  destruct (0 <? hashqty bf); reflexivity.
Qed.

Lemma Add_all_bitlen_zero es : forall bf, bitlen bf = 0 -> Add_all es bf = bf.
Proof.
  induction es as [|e es IH]; intros bf H0; [reflexivity|].
  rewrite Add_all_cons, (Add_bitlen_zero e bf H0). now apply IH.
Qed.

Lemma Add_loop_no_Err pos : forall bf err, fst (Add_loop pos bf) <> Err err.
Proof.
  induction pos as [|p pos IH]; intros bf err; [discriminate|].
  rewrite Add_loop_cons.
  destruct (word_at (bitstore bf) (fst (bitlocation p 64))); [apply IH|discriminate].
Qed.

Lemma Has_loop_no_Err pos : forall bf err, fst (Has_loop pos bf) <> Err err.
Proof.
  induction pos as [|p pos IH]; intros bf err; [discriminate|].
  rewrite Has_loop_cons.
  destruct (word_at (bitstore bf) (fst (bitlocation p 64))) as [w|]; [|discriminate].
  destruct (Z.land w (bit_mask (snd (bitlocation p 64))) =? 0); [discriminate|apply IH].
Qed.

(** [bitpositions] never returns an error. *)
Lemma bitpositions_no_error e bf :
  Filter_wf bf ->
  (exists pos, bitpositions e (hashqty bf) (bitlen bf) = Ok (pos, None)) \/
  bitpositions e (hashqty bf) (bitlen bf) = Panic DivideByZero.
Proof.
  intros [Hm Hk]. destruct (Z.eq_dec (bitlen bf) 0) as [H0|H0].
  - rewrite H0, bitpositions_zero. destruct (0 <? hashqty bf); eauto.
  - rewrite (bitpositions_eq e _ _ Hk H0). eauto.
Qed.

(** Reading the hexadecimal digits of bytes is reading the bytes. *)
Lemma hex_value_from_Sprintf_x bs : forall acc,
  hex_value_from (Sprintf_x bs) acc = be_value_from bs acc.
Proof.
  induction bs as [|b bs IH]; intros acc; [reflexivity|].
  cbn [Sprintf_x be_value_from].
  pose proof (byte_val_range b) as Hb.
  rewrite !hex_value_from_step by (Z.to_euclidean_division_equations; lia).
  rewrite IH. f_equal. Z.to_euclidean_division_equations; lia.
Qed.

Lemma be_value_from_range bs : forall acc,
  acc * 256 ^ Z.of_nat (length bs) <= be_value_from bs acc
    < (acc + 1) * 256 ^ Z.of_nat (length bs).
Proof.
  induction bs as [|b bs IH]; intros acc.
  - cbn [be_value_from length]. change (256 ^ Z.of_nat 0) with 1. lia.
  - cbn [be_value_from length]. pose proof (byte_val_range b) as Hb.
    specialize (IH (256 * acc + byte_val b)).
    rewrite Nat2Z.inj_succ, Z.pow_succ_r by lia.
    assert (0 < 256 ^ Z.of_nat (length bs)) by (apply Z.pow_pos_nonneg; lia).
    nia.
Qed.


(** The loop of [equal] from index [i] compares what is left of the slices. *)
Lemma equal_loop_spec s1 s2 : forall (fuel i : nat),
  length s1 = length s2 -> (i + fuel)%nat = length s1 ->
  equal_loop fuel i s1 s2 = Ok (bool_decide (drop i s1 = drop i s2)).
Proof.
  induction fuel as [|fuel IH]; intros i Hlen Hi; cbn [equal_loop].
  - rewrite !drop_ge by lia. reflexivity.
  - destruct (lookup_lt_is_Some_2 s1 i ltac:(lia)) as [a Ha].
    destruct (lookup_lt_is_Some_2 s2 i ltac:(lia)) as [b Hb].
    rewrite Ha, Hb.
    rewrite (drop_S s1 a i Ha), (drop_S s2 b i Hb).
    destruct (Z.eqb_spec a b) as [->|Hab]; cbn [negb].
    + rewrite IH by lia. f_equal. apply bool_decide_ext. split; congruence.
    + f_equal. symmetry. apply bool_decide_eq_false. congruence.
Qed.

(** X1: [hash] never returns an error: the number it parses from the first
    16 hexadecimal characters of the digest is the first eight bytes of the
    SHA-256 digest read as a big-endian uint64, and the result is that
    number modulo the bit length; with a bit length of zero it panics with
    a division by zero. *)
Theorem hash_big_endian b m :
  hash b m =
    (if m =? 0 then Panic DivideByZero
     else Ok (be_uint64 (SHA256.Sum256 b) mod m)) /\
  Int.is_uint64 (be_uint64 (SHA256.Sum256 b)) /\
  (forall err, hash b m <> Err err).
Proof.
  assert (E : hash b m =
    (if m =? 0 then Panic DivideByZero else Ok (be_uint64 (SHA256.Sum256 b) mod m))).
  { destruct (Z.eqb_spec m 0) as [->|H0]; [apply hash_zero|].
    rewrite (hash_eq b m H0). do 2 f_equal.
    change 16%nat with (2 * 8)%nat.
    rewrite Sprintf_x_prefix by (rewrite Sum256_length; lia).
    apply hex_value_from_Sprintf_x. }
  split; [exact E|]. split.
  - unfold be_uint64, Int.is_uint64.
    pose proof (be_value_from_range (firstn 8 (SHA256.Sum256 b)) 0) as H.
    rewrite length_firstn, Sum256_length in H.
    change (256 ^ Z.of_nat (Init.Nat.min 8 32)) with (2 ^ 64) in H.
    change (2 ^ 64) with 18446744073709551616 in *. lia.
  - intros err. rewrite E. destruct (m =? 0); discriminate.
Qed.

(** X2: for every position and bucket size the offset [bitlocation] returns
    is below the bucket size; with the 64-bit buckets of the filter the
    index is below 2^58, index and offset give the position back as
    [index * 64 + offset], and two positions with the same index and offset
    are the same position. *)
Theorem bitlocation_address p q w :
  Int.is_uint64 p -> Int.is_uint64 q -> Int.is_byte w ->
  0 <= snd (bitlocation p w) < bucket_size w /\
  fst (bitlocation p 64) * 64 + snd (bitlocation p 64) = p /\
  0 <= fst (bitlocation p 64) < 2 ^ 58 /\
  (bitlocation p 64 = bitlocation q 64 -> p = q).
Proof.
  intros Hp Hq Hw.
  destruct (bitlocation_offset p w Hp Hw) as [Ho _].
  rewrite Ho, !bitlocation_64 by assumption. cbn [fst snd].
  unfold Int.is_uint64, Int.is_byte, bucket_size in *.
  change (2 ^ 64) with 18446744073709551616 in *.
  change (2 ^ 58) with 288230376151711744.
  change (2 ^ 8) with 256 in *.
  repeat split.
  - destruct (Z.eqb_spec w 0); apply Z.mod_pos_bound; lia.
  - destruct (Z.eqb_spec w 0); apply Z.mod_pos_bound; lia.
  - Z.to_euclidean_division_equations; lia.
  - Z.to_euclidean_division_equations; lia.
  - Z.to_euclidean_division_equations; lia.
  - intros [= E1 E2]. Z.to_euclidean_division_equations; lia.
Qed.

Lemma bitlocation_address_witness :
  0 <= snd (bitlocation 41167512251 2) < bucket_size 2 /\
  fst (bitlocation 41167512251 64) * 64 + snd (bitlocation 41167512251 64) = 41167512251 /\
  0 <= fst (bitlocation 41167512251 64) < 2 ^ 58 /\
  (bitlocation 41167512251 64 = bitlocation 63 64 -> 41167512251 = 63).
Proof.
  apply (bitlocation_address 41167512251 63 2);
    unfold Int.is_uint64, Int.is_byte; lia.
Defined.

(** X3: on a filter whose fields are in the range of their types, neither
    [Add] nor [Has] returns an error, so that [MustAdd] and [MustHave] come
    back exactly as [Add] and [Has] do and never panic with an error of the
    hash function. *)
Theorem hash_failure_unreachable bf e :
  Filter_wf bf ->
  (forall err, fst (Add e bf) <> Err err) /\
  (forall err, fst (Has e bf) <> Err err) /\
  MustAdd e bf = Add e bf /\
  MustHave e bf = Has e bf.
Proof.
  intros Hwf.
  assert (HA : forall err, fst (Add e bf) <> Err err).
  { intros err. unfold Add.
    destruct (bitpositions_no_error e bf Hwf) as [[pos ->]| ->];
      [apply Add_loop_no_Err|discriminate]. }
  assert (HH : forall err, fst (Has e bf) <> Err err).
  { intros err. unfold Has.
    destruct (bitpositions_no_error e bf Hwf) as [[pos ->]| ->];
      [apply Has_loop_no_Err|discriminate]. }
  repeat split; try assumption.
  - unfold MustAdd. destruct (Add e bf) as [[a|err|q] bf'] eqn:E; try reflexivity.
    exfalso. apply (HA err). rewrite ?E. reflexivity.
  - unfold MustHave. destruct (Has e bf) as [[a|err|q] bf'] eqn:E; try reflexivity.
    exfalso. apply (HH err). rewrite ?E. reflexivity.
Qed.

Lemma hash_failure_unreachable_witness :
  (forall err, fst (Add (list_byte_of_string "test") TestFilter_Add_bf) <> Err err) /\
  (forall err, fst (Has (list_byte_of_string "test") TestFilter_Add_bf) <> Err err) /\
  MustAdd (list_byte_of_string "test") TestFilter_Add_bf =
    Add (list_byte_of_string "test") TestFilter_Add_bf /\
  MustHave (list_byte_of_string "test") TestFilter_Add_bf =
    Has (list_byte_of_string "test") TestFilter_Add_bf.
Proof.
  apply (hash_failure_unreachable TestFilter_Add_bf (list_byte_of_string "test")).
  split; [unfold Int.is_uint64 | unfold Int.is_byte]; cbn; lia.
Defined.

(** X4: a filter with no hash function, as [New] makes it for the
    probability 1, is left as it is by [Add] and reports every element as a
    member. *)
Theorem no_hash_functions bf e :
  hashqty bf = 0 ->
  Add e bf = (Ok tt, bf) /\ Has e bf = (Ok true, bf).
Proof.
  intros Hk. unfold Add, Has, bitpositions. rewrite Hk.
  change (Z.to_nat 0) with 0%nat. cbn [bitpositions_loop repeat].
  split; reflexivity.
Qed.

Lemma no_hash_functions_witness :
  New 1 1 = Ok {| prob := 1; bitlen := 0; hashqty := 0; n := 1; bitstore := [] |} /\
  Add (list_byte_of_string "bob@example.com")
      {| prob := 1; bitlen := 0; hashqty := 0; n := 1; bitstore := [] |} =
    (Ok tt, {| prob := 1; bitlen := 0; hashqty := 0; n := 1; bitstore := [] |}) /\
  Has (list_byte_of_string "bob@example.com")
      {| prob := 1; bitlen := 0; hashqty := 0; n := 1; bitstore := [] |} =
    (Ok true, {| prob := 1; bitlen := 0; hashqty := 0; n := 1; bitstore := [] |}).
Proof.
  split; [vm_compute; reflexivity |].
  apply (no_hash_functions
           {| prob := 1; bitlen := 0; hashqty := 0; n := 1; bitstore := [] |}).
  reflexivity.
Defined.

(** X5: a filter as [New] returns it, with at least one hash function and a
    bit length that is not zero, reports no element as a member. *)
Theorem Has_fresh n prob bf e :
  New n prob = Ok bf ->
  0 < hashqty bf -> bitlen bf <> 0 ->
  Has e bf = (Ok false, bf).
Proof.
  intros HNew Hk H0.
  destruct (New_wf _ _ _ HNew) as [Hwf Hs].
  rewrite Has_positions by assumption.
  pose proof (derived_positions_length e (hashqty bf) (bitlen bf)) as Hlen.
  pose proof (derived_positions_range e (hashqty bf) (bitlen bf)) as Hr.
  pose proof Hwf as [Hm _]. unfold Int.is_uint64 in Hm. specialize (Hr ltac:(lia)).
  destruct (derived_positions e (hashqty bf) (bitlen bf)) as [|p pos].
  - cbn [length] in Hlen. lia.
  - inversion Hr as [|? ? Hp _]; subst.
    rewrite Has_loop_cons_bit by (unfold Int.is_uint64; lia).
    apply New_Ok in HNew as (_ & _ & E).
    assert (Hb : bit_of bf p = Some false).
    { rewrite bit_of_bit_at. rewrite E in Hs, Hp |- *. unfold Filter_sized in Hs.
      cbn [bitstore bitlen] in *. apply bit_at_zeros.
      rewrite repeat_length in *. eapply position_bucket; eauto. }
    now rewrite Hb.
Qed.

Lemma Has_fresh_witness :
  Has (list_byte_of_string "bob@example.com")
      {| prob := prob_0_01; bitlen := 10; hashqty := 7; n := 1; bitstore := [0] |} =
    (Ok false,
     {| prob := prob_0_01; bitlen := 10; hashqty := 7; n := 1; bitstore := [0] |}).
Proof.
  apply (Has_fresh 1 prob_0_01).
  - vm_compute. reflexivity.
  - reflexivity.
  - discriminate.
Defined.

(** X6: [Add] sets the bits at the positions of the element and no other
    bit: after it a bit is set exactly when it was set before or its
    position is one of the element's, and the number of buckets is the
    same. *)
Theorem Add_sets_exactly bf e q :
  Filter_wf bf -> Filter_sized bf -> bitlen bf <> 0 ->
  bit_of (snd (Add e bf)) q =
    option_map
      (fun b => b || existsb (Z.eqb q) (derived_positions e (hashqty bf) (bitlen bf)))
      (bit_of bf q) /\
  length (bitstore (snd (Add e bf))) = length (bitstore bf).
Proof.
  intros Hwf Hs H0. rewrite (Add_set_bits e bf Hwf Hs H0). cbn [snd]. split.
  - rewrite !bit_of_bit_at. cbn [bitstore set_bitstore]. apply bit_at_set_bits.
  - cbn [bitstore set_bitstore]. apply set_bits_length.
Qed.

Lemma Add_sets_exactly_witness :
  bit_of (snd (Add (list_byte_of_string "test") TestFilter_Add_bf)) 36 =
    option_map
      (fun b => b || existsb (Z.eqb 36)
                       (derived_positions (list_byte_of_string "test")
                          (hashqty TestFilter_Add_bf) (bitlen TestFilter_Add_bf)))
      (bit_of TestFilter_Add_bf 36) /\
  length (bitstore (snd (Add (list_byte_of_string "test") TestFilter_Add_bf))) =
    length (bitstore TestFilter_Add_bf).
Proof.
  apply (Add_sets_exactly TestFilter_Add_bf).
  - split; [unfold Int.is_uint64 | unfold Int.is_byte]; cbn; lia.
  - unfold Filter_sized. cbn. lia.
  - discriminate.
Defined.

(** X7: [Add] of an element that [Has] reports as a member returns no error
    and leaves the filter exactly as it was. *)
Theorem Add_present bf e :
  Filter_wf bf ->
  fst (Has e bf) = Ok true ->
  Add e bf = (Ok tt, bf).
Proof.
  intros Hwf. unfold Has, Add.
  destruct (bitpositions e (hashqty bf) (bitlen bf)) as [[pos [err|]]|err|q] eqn:E;
    cbn [fst]; try discriminate.
  pose proof (bitpositions_uint64 _ _ _ _ Hwf E) as Hpos.
  rewrite Has_loop_true by assumption.
  now apply Add_loop_present.
Qed.

Lemma Add_present_witness :
  Add (list_byte_of_string "test") TestFilter_Has_bf = (Ok tt, TestFilter_Has_bf).
Proof.
  apply (Add_present TestFilter_Has_bf).
  - split; [unfold Int.is_uint64 | unfold Int.is_byte]; cbn; lia.
  - vm_compute. reflexivity.
Defined.

(** X8: after a run of adds, every element of the run is reported as a
    member, no matter what was added after it; an element [Has] reports as
    absent is none of the run. *)
Theorem added_elements_stay bf es e :
  Filter_wf bf -> Filter_sized bf -> bitlen bf <> 0 ->
  (In e es -> Has e (Add_all es bf) = (Ok true, Add_all es bf)) /\
  (fst (Has e (Add_all es bf)) = Ok false -> ~ In e es).
Proof.
  intros Hwf Hs H0.
  assert (Hin : In e es -> Has e (Add_all es bf) = (Ok true, Add_all es bf)).
  { intros He.
    rewrite (surjective_pairing (Has e (Add_all es bf))), Has_readonly. f_equal.
    destruct (Add_all_fields es bf) as [Em Ek].
    rewrite Has_positions by (try apply Add_all_wf; congruence).
    apply Has_loop_true.
    { rewrite Em, Ek. apply derived_positions_uint64; [apply Hwf|assumption]. }
    rewrite Em, Ek.
    pose proof (derived_positions_range e (hashqty bf) (bitlen bf)) as Hr.
    destruct Hwf as [Hm Hk]. pose proof Hm as Hm'. unfold Int.is_uint64 in Hm'.
    specialize (Hr ltac:(lia)).
    apply List.Forall_forall. intros p Hp.
    rewrite List.Forall_forall in Hr. specialize (Hr p Hp).
    destruct (bits_after_adds bf es p (conj Hm Hk) Hs H0 Hr) as (b & _ & ->).
    f_equal. apply orb_true_iff. right. apply existsb_eqb_In, In_positions_of.
    exists e. split; assumption. }
  split; [exact Hin|].
  intros Hf He. rewrite (Hin He) in Hf. discriminate Hf.
Qed.

Lemma added_elements_stay_witness :
  (In (list_byte_of_string "test")
      [list_byte_of_string "test"; list_byte_of_string "bob@example.com"] ->
   Has (list_byte_of_string "test")
       (Add_all [list_byte_of_string "test"; list_byte_of_string "bob@example.com"]
                TestFilter_Add_bf) =
     (Ok true,
      Add_all [list_byte_of_string "test"; list_byte_of_string "bob@example.com"]
              TestFilter_Add_bf)) /\
  (fst (Has (list_byte_of_string "test")
            (Add_all [list_byte_of_string "test"; list_byte_of_string "bob@example.com"]
                     TestFilter_Add_bf)) = Ok false ->
   ~ In (list_byte_of_string "test")
        [list_byte_of_string "test"; list_byte_of_string "bob@example.com"]).
Proof.
  apply (added_elements_stay TestFilter_Add_bf).
  - split; [unfold Int.is_uint64 | unfold Int.is_byte]; cbn; lia.
  - unfold Filter_sized. cbn. lia.
  - discriminate.
Defined.

(** X9: an element that [Has] reports as a member is still reported as a
    member after any further run of adds. *)
Theorem Has_true_stays bf e es :
  Filter_wf bf ->
  fst (Has e bf) = Ok true ->
  fst (Has e (Add_all es bf)) = Ok true.
Proof.
  intros Hwf H.
  apply (Has_true_le e bf); [assumption | apply Add_all_le | assumption].
Qed.

Lemma Has_true_stays_witness :
  fst (Has (list_byte_of_string "test")
           (Add_all [list_byte_of_string "test1"; list_byte_of_string "bob@example.com"]
                    TestFilter_Has_bf)) = Ok true.
Proof.
  apply (Has_true_stays TestFilter_Has_bf (list_byte_of_string "test")
           [list_byte_of_string "test1"; list_byte_of_string "bob@example.com"]).
  - split; [unfold Int.is_uint64 | unfold Int.is_byte]; cbn; lia.
  - vm_compute. reflexivity.
Defined.

(** X10: on a filter as [New] returns it, after a run of adds, [Has]
    returns no error, and it reports an element as a member exactly when
    every position of the element is a position of some element of the
    run. *)
Theorem Has_after_adds n prob bf es e :
  New n prob = Ok bf -> bitlen bf <> 0 ->
  exists b,
    Has e (Add_all es bf) = (Ok b, Add_all es bf) /\
    (b = true <->
     forall p, In p (derived_positions e (hashqty bf) (bitlen bf)) ->
       exists e', In e' es /\ In p (derived_positions e' (hashqty bf) (bitlen bf))).
Proof.
  intros HNew H0.
  destruct (New_wf _ _ _ HNew) as [Hwf Hs].
  destruct (Add_all_fields es bf) as [Em Ek].
  pose proof (derived_positions_range e (hashqty bf) (bitlen bf)) as Hr.
  pose proof Hwf as [Hm Hk]. pose proof Hm as Hm'. unfold Int.is_uint64 in Hm'.
  specialize (Hr ltac:(lia)).
  rewrite Has_positions by (try apply Add_all_wf; congruence).
  rewrite Em, Ek.
  destruct (Has_loop_result (derived_positions e (hashqty bf) (bitlen bf)) (Add_all es bf))
    as [b Hb].
  { now rewrite Em. } { now apply Add_all_sized. } { now rewrite Em. }
  exists b. split; [exact Hb|].
  assert (Hb' : fst (Has_loop (derived_positions e (hashqty bf) (bitlen bf)) (Add_all es bf))
                = Ok b) by now rewrite Hb.
  assert (Hz : forall p, 0 <= p < bitlen bf -> bit_of bf p = Some false).
  { intros p Hp. apply New_Ok in HNew as (_ & _ & ->).
    rewrite bit_of_bit_at. cbn [bitstore bitlen] in *.
    apply bit_at_zeros. unfold Filter_sized in Hs. cbn [bitstore bitlen] in Hs.
    rewrite repeat_length in *. eapply position_bucket; eauto. }
  assert (Hbit : forall p, In p (derived_positions e (hashqty bf) (bitlen bf)) ->
            (bit_of (Add_all es bf) p = Some true <->
             exists e', In e' es /\ In p (derived_positions e' (hashqty bf) (bitlen bf)))).
  { intros p Hp. rewrite List.Forall_forall in Hr. specialize (Hr p Hp).
    destruct (bits_after_adds bf es p Hwf Hs H0 Hr) as (b0 & Hb0 & ->).
    rewrite (Hz p Hr) in Hb0. injection Hb0 as <-. cbn [orb].
    rewrite <- In_positions_of, <- existsb_eqb_In. split; congruence. }
  split.
  - intros -> p Hp. apply Hbit; [assumption|].
    apply Has_loop_true in Hb'; [|now apply derived_positions_uint64].
    rewrite List.Forall_forall in Hb'. now apply Hb'.
  - intros H.
    assert (Ht : fst (Has_loop (derived_positions e (hashqty bf) (bitlen bf))
                               (Add_all es bf)) = Ok true).
    { apply Has_loop_true; [now apply derived_positions_uint64|].
      apply List.Forall_forall. intros p Hp. apply Hbit; auto. }
    rewrite Ht in Hb'. now injection Hb'.
Qed.

Lemma Has_after_adds_witness :
  exists b,
    Has (list_byte_of_string "test")
        (Add_all [list_byte_of_string "bob@example.com";
                  list_byte_of_string "alice@example.com"]
           {| prob := prob_0_01; bitlen := 10; hashqty := 7; n := 1; bitstore := [0] |}) =
      (Ok b,
       Add_all [list_byte_of_string "bob@example.com";
                list_byte_of_string "alice@example.com"]
         {| prob := prob_0_01; bitlen := 10; hashqty := 7; n := 1; bitstore := [0] |}) /\
    (b = true <->
     forall p, In p (derived_positions (list_byte_of_string "test") 7 10) ->
       exists e', In e' [list_byte_of_string "bob@example.com";
                         list_byte_of_string "alice@example.com"] /\
                  In p (derived_positions e' 7 10)).
Proof.
  apply (Has_after_adds 1 prob_0_01
           {| prob := prob_0_01; bitlen := 10; hashqty := 7; n := 1; bitstore := [0] |}
           [list_byte_of_string "bob@example.com"; list_byte_of_string "alice@example.com"]
           (list_byte_of_string "test")).
  - vm_compute. reflexivity.
  - discriminate.
Defined.

(** X11: the filter a run of adds leaves does not depend on the order of
    the adds. *)
Theorem Add_all_order bf es es' :
  Filter_wf bf -> Filter_sized bf ->
  Permutation es es' ->
  Add_all es bf = Add_all es' bf.
Proof.
  intros Hwf Hs Hperm.
  destruct (Z.eq_dec (bitlen bf) 0) as [H0|H0].
  - now rewrite !Add_all_bitlen_zero.
  - rewrite !Add_all_set_bits by assumption. f_equal.
    apply set_bits_perm. unfold positions_of.
    now apply Permutation_flat_map.
Qed.

Lemma Add_all_order_witness :
  Add_all [list_byte_of_string "test"; list_byte_of_string "bob@example.com"]
          TestFilter_Add_bf =
  Add_all [list_byte_of_string "bob@example.com"; list_byte_of_string "test"]
          TestFilter_Add_bf.
Proof.
  apply (Add_all_order TestFilter_Add_bf).
  - split; [unfold Int.is_uint64 | unfold Int.is_byte]; cbn; lia.
  - unfold Filter_sized. cbn. lia.
  - apply perm_swap.
Defined.

(** X12: whatever has been added to a filter as [New] returns it, the number
    of buckets is the one [New] allocated, no later [Add] or [Has] indexes
    the bit array out of range, and with a bit length that is not zero both
    return without a panic. *)
Theorem Add_all_in_bounds n prob bf es e :
  New n prob = Ok bf ->
  length (bitstore (Add_all es bf)) = length (bitstore bf) /\
  fst (Add e (Add_all es bf)) <> Panic IndexOutOfRange /\
  fst (Has e (Add_all es bf)) <> Panic IndexOutOfRange /\
  (bitlen bf <> 0 ->
   fst (Add e (Add_all es bf)) = Ok tt /\ exists b, fst (Has e (Add_all es bf)) = Ok b).
Proof.
  intros HNew. destruct (New_wf _ _ _ HNew) as [Hwf Hs].
  pose proof (Add_all_le es bf) as Hle.
  destruct (sized_in_bounds (Add_all es bf) e) as (_ & HA & HH & Hok).
  { eapply Filter_le_wf; eauto. } { eapply Filter_le_sized; eauto. }
  destruct Hle as (_ & Hm & _ & _ & Hbits).
  split; [symmetry; now apply bits_le_length|].
  split; [exact HA|]. split; [exact HH|].
  intros H0. apply Hok. congruence.
Qed.

Lemma Add_all_in_bounds_witness :
  length (bitstore
            (Add_all [list_byte_of_string "bob@example.com"]
               {| prob := prob_0_01; bitlen := 68; hashqty := 7; n := 7;
                  bitstore := [0; 0] |})) = 2%nat /\
  fst (Add (list_byte_of_string "alice@example.com")
         (Add_all [list_byte_of_string "bob@example.com"]
            {| prob := prob_0_01; bitlen := 68; hashqty := 7; n := 7;
               bitstore := [0; 0] |})) <> Panic IndexOutOfRange /\
  fst (Has (list_byte_of_string "alice@example.com")
         (Add_all [list_byte_of_string "bob@example.com"]
            {| prob := prob_0_01; bitlen := 68; hashqty := 7; n := 7;
               bitstore := [0; 0] |})) <> Panic IndexOutOfRange /\
  (68 <> 0 ->
   fst (Add (list_byte_of_string "alice@example.com")
          (Add_all [list_byte_of_string "bob@example.com"]
             {| prob := prob_0_01; bitlen := 68; hashqty := 7; n := 7;
                bitstore := [0; 0] |})) = Ok tt /\
   exists b,
     fst (Has (list_byte_of_string "alice@example.com")
            (Add_all [list_byte_of_string "bob@example.com"]
               {| prob := prob_0_01; bitlen := 68; hashqty := 7; n := 7;
                  bitstore := [0; 0] |})) = Ok b).
Proof.
  apply (Add_all_in_bounds 7 prob_0_01
           {| prob := prob_0_01; bitlen := 68; hashqty := 7; n := 7; bitstore := [0; 0] |}
           [list_byte_of_string "bob@example.com"]
           (list_byte_of_string "alice@example.com")).
  vm_compute. reflexivity.
Defined.

(** X13: [Fuzz] returns 1 for every input: [New] accepts its arguments,
    and [Add] neither returns an error nor panics. *)
Theorem Fuzz_returns_1 data : Fuzz data = Returns 1.
Proof.
  unfold Fuzz.
  assert (HNew : exists bf, New 4294967295 prob_0_0001 = Ok bf).
  { rewrite New_checked by (lia || (vm_compute; reflexivity)).
    assert (Hmem : (maxAlloc <?
                    8 * ((optimalBitLen 4294967295 prob_0_0001 + 63) / 64)) = false)
      by (vm_compute; reflexivity).
    rewrite Hmem. eauto. }
  destruct HNew as [bf HNew]. rewrite HNew.
  destruct (New_wf _ _ _ HNew) as [Hwf Hs].
  destruct (sized_in_bounds bf data Hwf Hs) as (_ & _ & _ & Hok).
  apply New_Ok in HNew as (_ & _ & E).
  assert (Hm : bitlen bf = 82335024503).
  { rewrite E. cbn [bitlen]. now vm_compute. }
  destruct Hok as [-> _]; [lia|reflexivity].
Qed.

(** X14: [equal] never panics, and it returns true exactly when the two
    slices are the same. *)
Theorem equal_spec s1 s2 : equal s1 s2 = Ok (bool_decide (s1 = s2)).
Proof.
  unfold equal. destruct (Nat.eqb_spec (length s1) (length s2)) as [Hlen|Hlen]; cbn [negb].
  - now rewrite equal_loop_spec.
  - f_equal. symmetry. apply bool_decide_eq_false. congruence.
Qed.
